(** * Location memories and photo gallery: a shallow embedding

    The two screens of the application that own data with an ordering or a
    de-duplication rule are modelled here:

    - the memories screen ([loadMemories], [saveMemories],
      [getCurrentLocation], [createMemory], [deleteMemory]);
    - the gallery screen ([getPhotoInfo], [loadPhotos]).

    Component state ([useState] cells) and the content of [AsyncStorage] are
    threaded explicitly through a small state/exception/trace monad. What the
    device answers (permission prompts, position fixes, storage failures,
    the clock, the button pressed in a dialog) is an argument of the modelled
    function, so that every statement quantifies over it. *)

From Stdlib Require Import ZArith QArith List String Ascii Bool Lia.
From Stdlib Require Import Sorted Permutation DecimalString.
From Stdlib Require DecimalPos DecimalZ.
Import ListNotations.
Local Open Scope Z_scope.

(** ** The JavaScript fragment used by the screens *)

Module JS.

(** A JavaScript string is a sequence of UTF-16 code units. *)
Definition jsstring := list N.

(** String literals of the source that are plain ASCII. *)
Definition str (s : string) : jsstring :=
  map N_of_ascii (list_ascii_of_string s).

Definition jsstring_eqb (a b : jsstring) : bool :=
  if list_eq_dec N.eq_dec a b then true else false.

(** [WhiteSpace] and [LineTerminator] code points of ECMAScript, the ones
    [String.prototype.trim] strips. All of them are in the basic plane. *)
Definition is_white_space (c : N) : bool :=
  (N.eqb c 9 || N.eqb c 10 || N.eqb c 11 || N.eqb c 12 || N.eqb c 13
   || N.eqb c 32 || N.eqb c 160 || N.eqb c 5760
   || (N.leb 8192 c && N.leb c 8202)
   || N.eqb c 8232 || N.eqb c 8233 || N.eqb c 8239 || N.eqb c 8287
   || N.eqb c 12288 || N.eqb c 65279)%bool.

Fixpoint trimStart (s : jsstring) : jsstring :=
  match s with
  | c :: s' => if is_white_space c then trimStart s' else s
  | [] => []
  end.

Definition trimEnd (s : jsstring) : jsstring := rev (trimStart (rev s)).

Definition trim (s : jsstring) : jsstring := trimEnd (trimStart s).

(** Truthiness of a string: every string but the empty one. *)
Definition truthy (s : jsstring) : bool :=
  match s with [] => false | _ :: _ => true end.

(** [Array.prototype.join] on an array of strings. *)
Fixpoint join (sep : jsstring) (parts : list jsstring) : jsstring :=
  match parts with
  | [] => []
  | [p] => p
  | p :: rest => p ++ sep ++ join sep rest
  end.

(** [Number.prototype.toString] on an integer. *)
Definition toString (n : Z) : jsstring :=
  str (NilZero.string_of_int (Z.to_int n)).

(** [Array.prototype.sort] with a comparison function. ECMAScript (2019 and
    later) requires the sort to be stable; for a consistent comparison
    function that fixes the result, which is computed here by insertion:
    [x] goes in front of the first element it does not have to follow. *)
Section ArraySort.
Context {A : Type} (comparefn : A -> A -> Z).

Fixpoint sort_insert (x : A) (l : list A) : list A :=
  match l with
  | [] => [x]
  | y :: l' => if comparefn x y <=? 0 then x :: l else y :: sort_insert x l'
  end.

Definition sort (l : list A) : list A := fold_right sort_insert [] l.
End ArraySort.

(** A [Map] keeps its entries in insertion order; [set] on a key already
    present replaces the value and keeps the position of the entry. *)
Section JSMap.
Context {V : Type}.

Definition Map := list (jsstring * V).

Fixpoint Map_set (k : jsstring) (v : V) (m : Map) : Map :=
  match m with
  | [] => [(k, v)]
  | (k', v') :: m' =>
      if jsstring_eqb k' k then (k', v) :: m' else (k', v') :: Map_set k v m'
  end.

Definition Map_values (m : Map) : list V := map snd m.
End JSMap.
Arguments Map : clear implicits.

(** Exceptions and rejected promises. *)
Inductive exn :=
| SyntaxError
| TypeError
| Rejected (reason : jsstring).

(** What a screen shows or logs, and which device interface it calls. *)
Inductive event :=
| console_error (msg : jsstring) (error : exn)
| console_log (args : list jsstring) (error : exn)
| Alert_alert (title message : jsstring)
| Call (api : jsstring).

Inductive outcome (A : Type) :=
| Returned (a : A)
| Thrown (e : exn).
Arguments Returned {A} a.
Arguments Thrown {A} e.

(** An (awaited) computation over a world [W]: its outcome, the world it
    leaves and the events it emitted, oldest first. *)
Definition M (W A : Type) : Type := W -> outcome A * W * list event.

Section Monad.
Context {W : Type}.

Definition ret {A} (a : A) : M W A := fun w => (Returned a, w, []).

Definition throw {A} (e : exn) : M W A := fun w => (Thrown e, w, []).

Definition bind {A B} (c : M W A) (k : A -> M W B) : M W B :=
  fun w =>
    match c w with
    | (Returned a, w1, t1) =>
        match k a w1 with (r, w2, t2) => (r, w2, t1 ++ t2) end
    | (Thrown e, w1, t1) => (Thrown e, w1, t1)
    end.

(** [try { c } catch (error) { h error }] *)
Definition try_catch {A} (c : M W A) (h : exn -> M W A) : M W A :=
  fun w =>
    match c w with
    | (Returned a, w1, t1) => (Returned a, w1, t1)
    | (Thrown e, w1, t1) =>
        match h e w1 with (r, w2, t2) => (r, w2, t1 ++ t2) end
    end.

(** [try { c } finally { f }] *)
Definition try_finally {A} (c : M W A) (f : M W unit) : M W A :=
  fun w =>
    match c w with
    | (r, w1, t1) =>
        match f w1 with
        | (Returned _, w2, t2) => (r, w2, t1 ++ t2)
        | (Thrown e, w2, t2) => (Thrown e, w2, t1 ++ t2)
        end
    end.

Definition emit (e : event) : M W unit := fun w => (Returned tt, w, [e]).

Definition gets {A} (f : W -> A) : M W A := fun w => (Returned (f w), w, []).

Definition modify (f : W -> W) : M W unit := fun w => (Returned tt, f w, []).

(** An awaited promise of the device: settled by the environment. *)
Definition await {A} (r : outcome A) : M W A := fun w => (r, w, []).

(** [Promise.all(l.map(f))]: rejects as soon as one element does. *)
Fixpoint Promise_all_map {A B} (f : A -> M W B) (l : list A) : M W (list B) :=
  match l with
  | [] => ret []
  | a :: l' =>
      bind (f a) (fun b =>
      bind (Promise_all_map f l') (fun bs => ret (b :: bs)))
  end.

(** The elements of an array with their indices, as [map] hands them to
    its callback. *)
Definition entries {A} (l : list A) : list (nat * A) :=
  combine (seq 0 (List.length l)) l.

Definition result {A} (c : M W A) (w : W) : outcome A := fst (fst (c w)).
Definition after {A} (c : M W A) (w : W) : W := snd (fst (c w)).
Definition trace {A} (c : M W A) (w : W) : list event := snd (c w).
End Monad.

Module Notations.
Notation "x <- c ;; k" := (bind c (fun x => k))
  (at level 61, c at next level, right associativity).
Notation "c ;; k" := (bind c (fun _ => k))
  (at level 61, right associativity).
End Notations.

End JS.

(** ** The memories screen *)

Module Memories.
Import JS JS.Notations.

(** The [location] object of a memory. Coordinates are finite numbers;
    [address] is declared optional. *)
Module Loc.
Record t := mk {
  latitude : Q;
  longitude : Q;
  address : option jsstring
}.
End Loc.

(** [interface LocationMemory]. [timestamp] is a reading of [Date.now()],
    an integer number of milliseconds. *)
Module LocationMemory.
Record t := mk {
  id : jsstring;
  title : jsstring;
  description : jsstring;
  emoji : jsstring;
  photoUri : option jsstring;
  location : Loc.t;
  timestamp : Z
}.
End LocationMemory.

(** The comparison function [(a, b) => b.timestamp - a.timestamp]. *)
Definition by_timestamp (a b : LocationMemory.t) : Z :=
  LocationMemory.timestamp b - LocationMemory.timestamp a.

(** The text stored under the key ['locationMemories'], told apart by what
    [JSON.parse] makes of it. *)
Inductive blob :=
| Serialized (l : list LocationMemory.t) (* what [JSON.stringify] writes *)
| OtherJson                             (* JSON, but not of an array *)
| NotJson                               (* rejected by [JSON.parse] *)
| EmptyText.                            (* the empty string *)

Inductive json :=
| JArray (l : list LocationMemory.t)
| JOther.

Definition JSON_stringify (l : list LocationMemory.t) : blob := Serialized l.

Definition blob_truthy (s : blob) : bool :=
  match s with EmptyText => false | _ => true end.

(** The [useState] cells of [MemoriesScreen], and the storage entry. *)
Record world := mkWorld {
  memories : list LocationMemory.t;
  modalVisible : bool;
  loading : bool;
  title : jsstring;
  description : jsstring;
  selectedEmoji : jsstring;
  capturedPhoto : option jsstring;
  AsyncStorage : option blob
}.

(** U+1F4CD, the pin, as a surrogate pair. *)
Definition pin : jsstring := [55357%N; 56525%N].

(** The screen when it mounts, over whatever the storage holds. *)
Definition initial (stored : option blob) : world :=
  mkWorld [] false false [] [] pin None stored.

Definition setMemories (l : list LocationMemory.t) : M world unit :=
  modify (fun w => mkWorld l (modalVisible w) (loading w) (title w)
    (description w) (selectedEmoji w) (capturedPhoto w) (AsyncStorage w)).

Definition setModalVisible (b : bool) : M world unit :=
  modify (fun w => mkWorld (memories w) b (loading w) (title w)
    (description w) (selectedEmoji w) (capturedPhoto w) (AsyncStorage w)).

Definition setLoading (b : bool) : M world unit :=
  modify (fun w => mkWorld (memories w) (modalVisible w) b (title w)
    (description w) (selectedEmoji w) (capturedPhoto w) (AsyncStorage w)).

Definition setTitle (s : jsstring) : M world unit :=
  modify (fun w => mkWorld (memories w) (modalVisible w) (loading w) s
    (description w) (selectedEmoji w) (capturedPhoto w) (AsyncStorage w)).

Definition setDescription (s : jsstring) : M world unit :=
  modify (fun w => mkWorld (memories w) (modalVisible w) (loading w) (title w)
    s (selectedEmoji w) (capturedPhoto w) (AsyncStorage w)).

Definition setSelectedEmoji (s : jsstring) : M world unit :=
  modify (fun w => mkWorld (memories w) (modalVisible w) (loading w) (title w)
    (description w) s (capturedPhoto w) (AsyncStorage w)).

Definition setCapturedPhoto (p : option jsstring) : M world unit :=
  modify (fun w => mkWorld (memories w) (modalVisible w) (loading w) (title w)
    (description w) (selectedEmoji w) p (AsyncStorage w)).

(** [AsyncStorage.getItem('locationMemories')]; [fails] is the rejection the
    device answers with, if any. *)
Definition AsyncStorage_getItem (fails : option exn) : M world (option blob) :=
  emit (Call (str "AsyncStorage.getItem")) ;;
  match fails with
  | Some e => throw e
  | None => gets AsyncStorage
  end.

(** [AsyncStorage.setItem('locationMemories', s)]; a rejected write leaves
    the entry as it was. *)
Definition AsyncStorage_setItem (fails : option exn) (s : blob)
    : M world unit :=
  emit (Call (str "AsyncStorage.setItem")) ;;
  match fails with
  | Some e => throw e
  | None =>
      modify (fun w => mkWorld (memories w) (modalVisible w) (loading w)
        (title w) (description w) (selectedEmoji w) (capturedPhoto w) (Some s))
  end.

Definition JSON_parse (s : blob) : M world json :=
  match s with
  | Serialized l => ret (JArray l)
  | OtherJson => ret JOther
  | NotJson | EmptyText => throw SyntaxError
  end.

(** [parsed.sort(...)]: only an array has the method. *)
Definition parsed_sort (parsed : json) : M world (list LocationMemory.t) :=
  match parsed with
  | JArray l => ret (sort by_timestamp l)
  | JOther => throw TypeError
  end.

Definition loadMemories (getItem : option exn) : M world unit :=
  try_catch
    (stored <- AsyncStorage_getItem getItem ;;
     match stored with
     | Some s =>
         if blob_truthy s then
           parsed <- JSON_parse s ;;
           sorted <- parsed_sort parsed ;;
           setMemories sorted
         else ret tt
     | None => ret tt
     end)
    (fun error => emit (console_error (str "Error loading memories:") error)).

(** The text is made of the list as it comes; the sort, in place on an array
    that only this call holds, follows the write. *)
Definition saveMemories (setItem : option exn)
    (newMemories : list LocationMemory.t) : M world unit :=
  try_catch
    (AsyncStorage_setItem setItem (JSON_stringify newMemories) ;;
     setMemories (sort by_timestamp newMemories))
    (fun error =>
       emit (console_error (str "Error saving memories:") error) ;;
       emit (Alert_alert (str "Error") (str "Failed to save memory"))).

(** The geolocation provider. *)
Inductive PermissionStatus := granted | denied | undetermined.

Record GeocodedAddress := mkAddress {
  street : option jsstring;
  city : option jsstring;
  region : option jsstring
}.

(** What the device answers during one run of [createMemory]. *)
Record device := mkDevice {
  requestForegroundPermissionsAsync : outcome PermissionStatus;
  getCurrentPositionAsync : outcome (Q * Q);
  reverseGeocodeAsync : Q -> Q -> outcome (list GeocodedAddress);
  Date_now : Z * Z; (* the two readings, for [id] and for [timestamp] *)
  setItem : option exn
}.

(** [.filter(Boolean)] on an array of [string | null]. *)
Fixpoint filter_Boolean (parts : list (option jsstring)) : list jsstring :=
  match parts with
  | [] => []
  | Some s :: rest =>
      if truthy s then s :: filter_Boolean rest else filter_Boolean rest
  | None :: rest => filter_Boolean rest
  end.

Definition is_granted (s : PermissionStatus) : bool :=
  match s with granted => true | _ => false end.

Definition getCurrentLocation (d : device) : M world (option Loc.t) :=
  try_catch
    (emit (Call (str "Location.requestForegroundPermissionsAsync")) ;;
     status <- await (requestForegroundPermissionsAsync d) ;;
     if negb (is_granted status) then
       emit (Alert_alert (str "Permission needed")
         (str ("Location permission is required " ++
               "to save memories with location."))) ;;
       ret None
     else
       emit (Call (str "Location.getCurrentPositionAsync")) ;;
       coords <- await (getCurrentPositionAsync d) ;;
       address <-
         try_catch
           (emit (Call (str "Location.reverseGeocodeAsync")) ;;
            reverseGeocode <-
              await (reverseGeocodeAsync d (fst coords) (snd coords)) ;;
            match reverseGeocode with
            | addr :: _ =>
                ret (join (str ", ")
                       (filter_Boolean [street addr; city addr; region addr]))
            | [] => ret []
            end)
           (fun error =>
              emit (console_log [str "Error getting address:"] error) ;;
              ret []) ;;
       ret (Some (Loc.mk (fst coords) (snd coords) (Some address))))
    (fun error =>
       emit (console_error (str "Error getting location:") error) ;;
       emit (Alert_alert (str "Error")
         (str "Could not get current location")) ;;
       ret None).

(** [photoUri || undefined] *)
Definition or_undefined (p : option jsstring) : option jsstring :=
  match p with
  | Some s => if truthy s then Some s else None
  | None => None
  end.

Definition createMemory (d : device) : M world unit :=
  title0 <- gets title ;;
  if negb (truthy (trim title0)) then
    emit (Alert_alert (str "Required")
      (str "Please enter a title for your memory"))
  else
    setLoading true ;;
    try_finally
      (try_catch
         (location <- getCurrentLocation d ;;
          match location with
          | None => setLoading false
          | Some location =>
              photoUri <- gets capturedPhoto ;;
              description0 <- gets description ;;
              selectedEmoji0 <- gets selectedEmoji ;;
              let newMemory :=
                LocationMemory.mk (toString (fst (Date_now d))) (trim title0)
                  (trim description0) selectedEmoji0 (or_undefined photoUri)
                  location (snd (Date_now d)) in
              memories0 <- gets memories ;;
              let updatedMemories := newMemory :: memories0 in
              saveMemories (setItem d) updatedMemories ;;
              setTitle [] ;;
              setDescription [] ;;
              setSelectedEmoji pin ;;
              setCapturedPhoto None ;;
              setModalVisible false ;;
              emit (Alert_alert (str "Success!")
                (str "Memory saved successfully!"))
          end)
         (fun error =>
            emit (console_error (str "Error creating memory:") error) ;;
            emit (Alert_alert (str "Error") (str "Failed to create memory"))))
      (setLoading false).

(** The buttons of the confirmation dialog. *)
Inductive button := Cancel | Delete.

Definition deleteMemory (pressed : button) (setItem : option exn)
    (id : jsstring) : M world unit :=
  emit (Alert_alert (str "Delete Memory")
    (str "Are you sure you want to delete this memory?")) ;;
  match pressed with
  | Cancel => ret tt
  | Delete =>
      memories0 <- gets memories ;;
      let updatedMemories :=
        filter (fun m => negb (jsstring_eqb (LocationMemory.id m) id))
          memories0 in
      saveMemories setItem updatedMemories
  end.

(** Reverse-chronological order. *)
Definition newest_first (l : list LocationMemory.t) : Prop :=
  StronglySorted
    (fun a b => LocationMemory.timestamp b <= LocationMemory.timestamp a) l.

(** The records held by the storage entry, when it holds an array. *)
Definition persisted (w : world) : list LocationMemory.t :=
  match AsyncStorage w with
  | Some (Serialized l) => l
  | _ => []
  end.

(** The records of [l] whose timestamp is [t], in the order of [l]. *)
Definition with_timestamp (t : Z) (l : list LocationMemory.t) :=
  filter (fun m => LocationMemory.timestamp m =? t) l.

(** The address [getCurrentLocation] makes of what the geocoder answers. *)
Definition address_of (r : outcome (list GeocodedAddress)) : jsstring :=
  match r with
  | Returned (addr :: _) =>
      join (str ", ") (filter_Boolean [street addr; city addr; region addr])
  | _ => []
  end.

(** The geocoder failed, found nothing, or found a place without street,
    city and region. *)
Definition no_components (r : outcome (list GeocodedAddress)) : Prop :=
  match r with
  | Returned (addr :: _) =>
      filter_Boolean [street addr; city addr; region addr] = []
  | _ => True
  end.

(** The image picker: what it hands back, and what the device answers
    during one run of [pickImage] or [takePhoto]. *)
Module ImagePickerAsset.
Record t := mk { uri : jsstring }.
End ImagePickerAsset.

Record ImagePickerResult := mkPicked {
  canceled : bool;
  assets : option (list ImagePickerAsset.t) (* [null] once cancelled *)
}.

Record picker := mkPicker {
  requestPermissionsAsync : outcome PermissionStatus;
  launchAsync : outcome ImagePickerResult
}.

(** [result.assets[0]]: reading an index of [null] throws, reading past
    the end gives [undefined]. *)
Definition assets_0 (picked : ImagePickerResult)
    : M world (option ImagePickerAsset.t) :=
  match assets picked with
  | None => throw TypeError
  | Some [] => ret None
  | Some (a :: _) => ret (Some a)
  end.

Definition pickImage (p : picker) : M world unit :=
  try_catch
    (emit (Call (str "ImagePicker.requestMediaLibraryPermissionsAsync")) ;;
     status <- await (requestPermissionsAsync p) ;;
     if negb (is_granted status) then
       emit (Alert_alert (str "Permission needed")
         (str "Photo library permission is required to select images."))
     else
       emit (Call (str "ImagePicker.launchImageLibraryAsync")) ;;
       picked <- await (launchAsync p) ;;
       first <- (if negb (canceled picked) then assets_0 picked
                 else ret None) ;;
       match first with
       | Some a => setCapturedPhoto (Some (ImagePickerAsset.uri a))
       | None => ret tt
       end)
    (fun error =>
       emit (console_error (str "Error picking image:") error) ;;
       emit (Alert_alert (str "Error")
         (str "Failed to select image. Please try again."))).

Definition takePhoto (p : picker) : M world unit :=
  try_catch
    (emit (Call (str "ImagePicker.requestCameraPermissionsAsync")) ;;
     status <- await (requestPermissionsAsync p) ;;
     if negb (is_granted status) then
       emit (Alert_alert (str "Permission needed")
         (str "Camera permission is required to take photos."))
     else
       emit (Call (str "ImagePicker.launchCameraAsync")) ;;
       picked <- await (launchAsync p) ;;
       first <- (if negb (canceled picked) then assets_0 picked
                 else ret None) ;;
       match first with
       | Some a => setCapturedPhoto (Some (ImagePickerAsset.uri a))
       | None => ret tt
       end)
    (fun error =>
       emit (console_error (str "Error taking photo:") error) ;;
       emit (Alert_alert (str "Error")
         (str "Failed to take photo. Please try again."))).

(** The record [createMemory] builds from the form, the clock and the
    location it was given. *)
Definition newMemory (d : device) (w : world) (location : Loc.t)
    : LocationMemory.t :=
  LocationMemory.mk (toString (fst (Date_now d))) (trim (title w))
    (trim (description w)) (selectedEmoji w) (or_undefined (capturedPhoto w))
    location (snd (Date_now d)).

(** What happens on the screen, each with what the device answers while it
    runs: the operations of the record store, and the edits of the form of
    the composer (the two text inputs, the emoji buttons, the photo
    buttons and the buttons that open and close the composer). *)
Inductive operation :=
| load (getItem : option exn)
| save (setItem : option exn) (records : list LocationMemory.t)
| append (d : device)
| remove (pressed : button) (setItem : option exn) (id : jsstring)
| type_title (text : jsstring)
| type_description (text : jsstring)
| choose_emoji (emoji : jsstring)
| pick (p : picker)
| take (p : picker)
| drop_photo
| show_composer (visible : bool).

Definition perform (o : operation) : M world unit :=
  match o with
  | load g => loadMemories g
  | save s l => saveMemories s l
  | append d => createMemory d
  | remove b s i => deleteMemory b s i
  | type_title text => setTitle text
  | type_description text => setDescription text
  | choose_emoji emoji => setSelectedEmoji emoji
  | pick p => pickImage p
  | take p => takePhoto p
  | drop_photo => setCapturedPhoto None
  | show_composer visible => setModalVisible visible
  end.

(** One operation after the other, each on the screen as the one before
    left it. *)
Fixpoint run (ops : list operation) (w : world) : world :=
  match ops with
  | [] => w
  | o :: ops' => run ops' (after (perform o) w)
  end.

(** The storage holds the text of the collection in memory, which is in
    order; or holds nothing, under an empty collection. *)
Definition in_step_with_storage (w : world) : Prop :=
  newest_first (memories w) /\
  (AsyncStorage w = Some (Serialized (memories w)) \/
   AsyncStorage w = None /\ memories w = []).

(** No record of [l] is newer than [t]. *)
Definition none_newer (t : Z) (l : list LocationMemory.t) : Prop :=
  Forall (fun m => LocationMemory.timestamp m <= t) l.

(** An operation that hands [saveMemories] a list in order: any load, any
    remove, any edit of the form, a save of a list in order, an append
    under a clock that did not step back behind the newest record. *)
Definition keeps_order (o : operation) (w : world) : Prop :=
  match o with
  | save _ l => newest_first l
  | append d => none_newer (snd (Date_now d)) (memories w)
  | _ => True
  end.

Fixpoint all_keep_order (ops : list operation) (w : world) : Prop :=
  match ops with
  | [] => True
  | o :: ops' => keeps_order o w /\ all_keep_order ops' (after (perform o) w)
  end.

(** Sample data. *)
Module Sample.
Definition a_memory (i : string) (t : Z) : LocationMemory.t :=
  LocationMemory.mk (str i) (str "Coffee") [] pin None
    (Loc.mk 40 (-73) (Some [])) t.

Definition older : LocationMemory.t := a_memory "1" 1.
Definition newer : LocationMemory.t := a_memory "2" 2.

(** Three records, the first and the last of the same millisecond. *)
Definition tied : list LocationMemory.t :=
  [a_memory "1" 7; a_memory "2" 9; a_memory "3" 7].

(** A device that grants the permission and fixes the position, with the
    geocoder out of reach. *)
Definition a_device : device :=
  mkDevice (Returned granted) (Returned (40, -73)%Q)
    (fun _ _ => Thrown (Rejected (str "geocoder unreachable")))
    (1700000000000, 1700000000000) None.

(** The composer open on a blank title: space, tab, no-break space and
    line feed. *)
Definition blank_form : world :=
  mkWorld [newer; older] true false [32%N; 9%N; 160%N; 10%N]
    (str "with a view") pin None (Some (Serialized [newer; older])).

(** The composer open on the title "Coffee". *)
Definition coffee_form : world :=
  mkWorld [] true false (str "Coffee") [] pin None None.

Definition coffee : LocationMemory.t :=
  LocationMemory.mk (toString 1700000000000) (str "Coffee") [] pin None
    (Loc.mk 40 (-73) (Some [])) 1700000000000.

(** Memory and storage in step, newest first. *)
Definition in_step : world :=
  mkWorld [newer; older] false false [] [] pin None
    (Some (Serialized [newer; older])).

(** A stored text that is not JSON, under a screen that holds a record. *)
Definition unreadable : world :=
  mkWorld [older] false false [] [] pin None (Some NotJson).

(** The screen after a read that was rejected: nothing in memory, one
    record in the storage. *)
Definition after_failed_read : world :=
  run [load (Some (Rejected (str "read failed")))]
    (initial (Some (Serialized [older]))).

(** A picker that hands back one image. *)
Definition a_picker : picker :=
  mkPicker (Returned granted)
    (Returned (mkPicked false
       (Some [ImagePickerAsset.mk (str "file:///picked.jpg")]))).

(** A device that refuses the location permission. *)
Definition a_refusing_device : device :=
  mkDevice (Returned denied) (Returned (40, -73)%Q)
    (fun _ _ => Returned []) (1700000000000, 1700000000000) None.

(** A device whose storage rejects the write. *)
Definition a_full_device : device :=
  mkDevice (Returned granted) (Returned (40, -73)%Q)
    (fun _ _ => Returned []) (1700000000000, 1700000000000)
    (Some (Rejected (str "disk full"))).

(** A device whose geocoder finds a place with a street and a city. *)
Definition a_geocoding_device : device :=
  mkDevice (Returned granted) (Returned (40, -73)%Q)
    (fun _ _ => Returned [mkAddress (Some (str "Main St"))
                            (Some (str "Waltham")) None])
    (1700000000000, 1700000000000) None.

(** The composer open over two records, with a title to trim. *)
Definition tea_form : world :=
  mkWorld [newer; older] true false (str "  Tea ") (str " hot ") pin
    (Some (str "file:///picked.jpg")) (Some (Serialized [newer; older])).

(** A device whose clock was set back. *)
Definition a_backdated_device : device :=
  mkDevice (Returned granted) (Returned (40, -73)%Q)
    (fun _ _ => Returned []) (5, 5) None.

(** Two memories composed one after the other, the second under the clock
    that was set back. *)
Definition two_appends : list operation :=
  [show_composer true; type_title (str "Tea"); append a_geocoding_device;
   show_composer true; type_title (str "Coffee"); append a_backdated_device].
End Sample.

End Memories.

(** ** The gallery screen *)

Module Gallery.
Import JS JS.Notations.

(** [MediaLibrary.Asset], the fields the screen reads. *)
Module Asset.
Record t := mk {
  id : jsstring;
  uri : jsstring;
  creationTime : Z;
  filename : jsstring
}.
End Asset.

(** [MediaLibrary.AssetInfo], the field the screen reads. *)
Module AssetInfo.
Record t := mk { localUri : option jsstring }.
End AssetInfo.

(** [interface Photo] *)
Module Photo.
Record t := mk {
  id : jsstring;
  uri : jsstring;
  creationTime : Z;
  filename : jsstring;
  localUri : option jsstring
}.
End Photo.

(** The comparison function [(a, b) => b.creationTime - a.creationTime]. *)
Definition by_creationTime (a b : Photo.t) : Z :=
  Photo.creationTime b - Photo.creationTime a.

Record world := mkWorld {
  photos : list Photo.t;
  loading : bool;
  selectedPhoto : option Photo.t;
  modalVisible : bool
}.

Definition initial : world := mkWorld [] false None false.

Definition setPhotos (l : list Photo.t) : M world unit :=
  modify (fun w => mkWorld l (loading w) (selectedPhoto w) (modalVisible w)).

Definition setLoading (b : bool) : M world unit :=
  modify (fun w => mkWorld (photos w) b (selectedPhoto w) (modalVisible w)).

Inductive PermissionStatus := granted | denied | undetermined.

Definition is_granted (s : PermissionStatus) : bool :=
  match s with granted => true | _ => false end.

(** The two queries of [loadPhotos]. *)
Inductive query := album_query | roll_query.

(** What the device answers during one run of [loadPhotos]. The answer of
    [getAssetInfoAsync] may differ from one call to the next, so it is given
    per query and per position in the batch. *)
Record device := mkDevice {
  permission_granted : bool;
  requestPermission : outcome PermissionStatus;
  getAlbumAsync : outcome (option jsstring);
  getAssetsAsync : query -> outcome (list Asset.t);
  getAssetInfoAsync : query -> nat -> Asset.t -> outcome AssetInfo.t
}.

(** [a || b] on strings, [a] possibly undefined. *)
Definition or_else (a : option jsstring) (b : jsstring) : jsstring :=
  match a with
  | Some s => if truthy s then s else b
  | None => b
  end.

Definition getPhotoInfo (getAssetInfo : Asset.t -> outcome AssetInfo.t)
    (asset : Asset.t) : M world Photo.t :=
  try_catch
    (emit (Call (str "MediaLibrary.getAssetInfoAsync")) ;;
     assetInfo <- await (getAssetInfo asset) ;;
     ret (Photo.mk (Asset.id asset)
            (or_else (AssetInfo.localUri assetInfo) (Asset.uri asset))
            (Asset.creationTime asset) (Asset.filename asset)
            (AssetInfo.localUri assetInfo)))
    (fun error =>
       emit (console_log [str "Error getting asset info for"; Asset.id asset]
         error) ;;
       ret (Photo.mk (Asset.id asset) (Asset.uri asset)
              (Asset.creationTime asset) (Asset.filename asset) None)).

(** [Promise.all(assets.map(asset => getPhotoInfo(asset)))] for the batch
    of one query. *)
Definition getPhotoInfos (d : device) (q : query) (assets : list Asset.t)
    : M world (list Photo.t) :=
  Promise_all_map
    (fun ia => getPhotoInfo (getAssetInfoAsync d q (fst ia)) (snd ia))
    (entries assets).

(** The map filled by [forEach] over [[...allPhotos, ...recentPhotos]]. *)
Definition photoMap (allPhotos recentPhotos : list Photo.t) : Map Photo.t :=
  fold_left (fun m photo => Map_set (Photo.id photo) photo m)
    (allPhotos ++ recentPhotos) [].

Definition uniquePhotos (allPhotos recentPhotos : list Photo.t)
    : list Photo.t :=
  sort by_creationTime (Map_values (photoMap allPhotos recentPhotos)).

Definition loadPhotos (d : device) : M world unit :=
  proceed <-
    (if negb (permission_granted d) then
       status <- await (requestPermission d) ;;
       if negb (is_granted status) then
         emit (Alert_alert (str "Permission needed")
           (str "We need access to your photo library to view photos.")) ;;
         ret false
       else ret true
     else ret true) ;;
  if negb proceed then ret tt
  else
    try_finally
      (try_catch
         (setLoading true ;;
          allPhotos <-
            try_catch
              (emit (Call (str "MediaLibrary.getAlbumAsync")) ;;
               album <- await (getAlbumAsync d) ;;
               match album with
               | Some _ =>
                   emit (Call (str "MediaLibrary.getAssetsAsync")) ;;
                   albumAssets <- await (getAssetsAsync d album_query) ;;
                   getPhotoInfos d album_query albumAssets
               | None => ret []
               end)
              (fun albumError =>
                 emit (console_log
                   [str "No custom album found or error accessing it:"]
                   albumError) ;;
                 ret []) ;;
          emit (Call (str "MediaLibrary.getAssetsAsync")) ;;
          recentResult <- await (getAssetsAsync d roll_query) ;;
          recentPhotos <- getPhotoInfos d roll_query recentResult ;;
          setPhotos (uniquePhotos allPhotos recentPhotos))
         (fun error =>
            emit (console_error (str "Error loading photos:") error) ;;
            emit (Alert_alert (str "Error")
              (str "Failed to load photos. Please try again."))))
      (setLoading false).

(** Newest first. *)
Definition newest_first (l : list Photo.t) : Prop :=
  StronglySorted (fun a b => Photo.creationTime b <= Photo.creationTime a) l.

(** The last photo of [l] that carries the identifier [k]. *)
Definition last_with_id (k : jsstring) (l : list Photo.t) : option Photo.t :=
  find (fun p => jsstring_eqb (Photo.id p) k) (rev l).

Definition setSelectedPhoto (p : option Photo.t) : M world unit :=
  modify (fun w => mkWorld (photos w) (loading w) p (modalVisible w)).

Definition setModalVisible (b : bool) : M world unit :=
  modify (fun w => mkWorld (photos w) (loading w) (selectedPhoto w) b).

(** [deleteAssetsAsync] is what the device answers to the request. *)
Definition deletePhoto (deleteAssetsAsync : outcome bool)
    (photoId : jsstring) : M world unit :=
  try_catch
    (emit (Call (str "MediaLibrary.deleteAssetsAsync")) ;;
     canDelete <- await deleteAssetsAsync ;;
     if canDelete then
       prevPhotos <- gets photos ;;
       setPhotos
         (filter (fun photo => negb (jsstring_eqb (Photo.id photo) photoId))
            prevPhotos) ;;
       setModalVisible false ;;
       emit (Alert_alert (str "Success") (str "Photo deleted successfully!"))
     else
       emit (Alert_alert (str "Error") (str "Failed to delete photo.")))
    (fun error =>
       emit (console_error (str "Error deleting photo:") error) ;;
       emit (Alert_alert (str "Error") (str "Failed to delete photo."))).

(** The buttons of the confirmation dialog. *)
Inductive button := Cancel | Delete.

Definition confirmDelete (pressed : button) (deleteAssetsAsync : outcome bool)
    (photo : Photo.t) : M world unit :=
  emit (Alert_alert (str "Delete Photo")
    (str "Are you sure you want to delete this photo?")) ;;
  match pressed with
  | Cancel => ret tt
  | Delete => deletePhoto deleteAssetsAsync (Photo.id photo)
  end.

Definition openPhotoModal (photo : Photo.t) : M world unit :=
  setSelectedPhoto (Some photo) ;;
  setModalVisible true.

(** What a user does on the screen, each with what the device answers. *)
Inductive operation :=
| refresh (d : device)
| open (photo : Photo.t)
| delete (pressed : button) (deleteAssetsAsync : outcome bool)
    (photo : Photo.t).

Definition perform (o : operation) : M world unit :=
  match o with
  | refresh d => loadPhotos d
  | open photo => openPhotoModal photo
  | delete b answer photo => confirmDelete b answer photo
  end.

(** One operation after the other; a rejection that reaches the caller
    leaves the screen as it is at that point. *)
Fixpoint run (ops : list operation) (w : world) : world :=
  match ops with
  | [] => w
  | o :: ops' => run ops' (after (perform o) w)
  end.

(** The map after the photos of [r] were set, the last of [r] first. *)
Definition filled (r : list Photo.t) : Map Photo.t :=
  fold_right (fun photo m => Map_set (Photo.id photo) photo m) [] r.

(** Sample data. *)
Module Sample.
(** A device with the album ["Camera App Photos"], holding [a] and [b],
    and a roll holding [b] and [c]. *)
Definition a_device (r : outcome PermissionStatus)
    (answers : query -> nat -> Asset.t -> outcome AssetInfo.t)
    (a b c : Asset.t) : device :=
  mkDevice true r (Returned (Some (str "Camera App Photos")))
    (fun q => match q with
              | album_query => Returned [a; b]
              | roll_query => Returned [b; c]
              end)
    answers.

Definition first_asset : Asset.t :=
  Asset.mk (str "a") (str "ph://a") 5 (str "a.jpg").
Definition second_asset : Asset.t :=
  Asset.mk (str "b") (str "ph://b") 3 (str "b.jpg").
Definition third_asset : Asset.t :=
  Asset.mk (str "c") (str "ph://c") 8 (str "c.jpg").

Definition no_info : exn := Rejected (str "asset info unavailable").

(** Resolution fails for the second asset of a batch and for no other. *)
Definition second_fails (q : query) (i : nat) (asset : Asset.t)
    : outcome AssetInfo.t :=
  match i with
  | 1%nat => Thrown no_info
  | _ => Returned (AssetInfo.mk (Some (str "file:///" ++ Asset.filename asset)))
  end.

Definition flaky_device : device :=
  a_device (Returned granted) second_fails first_asset second_asset third_asset.

(** The photos a merge of [first_asset], [second_asset] and [third_asset]
    shows, with their own URIs. *)
Definition shown : list Photo.t :=
  [Photo.mk (str "c") (str "ph://c") 8 (str "c.jpg") None;
   Photo.mk (str "a") (str "ph://a") 5 (str "a.jpg") None;
   Photo.mk (str "b") (str "ph://b") 3 (str "b.jpg") None].

(** A device that refuses the permission when asked. *)
Definition a_refusing_device : device :=
  mkDevice false (Returned denied) (Returned None)
    (fun _ => Returned []) second_fails.

(** A device without the album, or whose album cannot be read, and a roll
    of three assets. *)
Definition a_device_without_album (album : outcome (option jsstring))
    : device :=
  mkDevice true (Returned granted) album
    (fun q => match q with
              | album_query => Thrown no_info
              | roll_query => Returned [first_asset; second_asset; third_asset]
              end)
    (fun _ _ _ => Thrown no_info).
End Sample.

End Gallery.

(** ** The camera screen *)

Module Camera.
Import JS JS.Notations.

Inductive CameraType := back | front.

(** The [useState] cells of the screen. *)
Record world := mkWorld {
  facing : CameraType;
  isCapturing : bool
}.

Definition initial : world := mkWorld back false.

Definition setFacing (f : CameraType) : M world unit :=
  modify (fun w => mkWorld f (isCapturing w)).

Definition setIsCapturing (b : bool) : M world unit :=
  modify (fun w => mkWorld (facing w) b).

(** [setFacing(current => (current === 'back' ? 'front' : 'back'))] *)
Definition toggleCameraFacing : M world unit :=
  current <- gets facing ;;
  setFacing (match current with back => front | front => back end).

(** What the device answers during one run of [takePicture]. *)
Record device := mkDevice {
  camera_mounted : bool;          (* [cameraRef.current] is set *)
  mediaPermission_granted : bool; (* [mediaPermission?.granted] *)
  requestMediaPermission : outcome Gallery.PermissionStatus;
  takePictureAsync : outcome (option jsstring); (* the URI of the photo *)
  createAssetAsync : jsstring -> outcome Gallery.Asset.t;
  getAlbumAsync : outcome (option jsstring);
  createAlbumAsync : outcome unit;
  addAssetsToAlbumAsync : outcome unit
}.

(** The asset logged by the last line is no error; that line is recorded
    as a call of [console.log]. *)
Definition takePicture (d : device) : M world unit :=
  capturing <- gets isCapturing ;;
  if (negb (camera_mounted d) || capturing)%bool then ret tt
  else
    try_finally
      (try_catch
         (setIsCapturing true ;;
          proceed <-
            (if negb (mediaPermission_granted d) then
               emit (Call (str "requestMediaPermission")) ;;
               status <- await (requestMediaPermission d) ;;
               if negb (Gallery.is_granted status) then
                 emit (Alert_alert (str "Permission needed")
                   (str ("We need access to your photo library " ++
                         "to save pictures."))) ;;
                 ret false
               else ret true
             else ret true) ;;
          if negb proceed then ret tt
          else
            emit (Call (str "takePictureAsync")) ;;
            photo <- await (takePictureAsync d) ;;
            match photo with
            | Some uri =>
                emit (Call (str "MediaLibrary.createAssetAsync")) ;;
                asset <- await (createAssetAsync d uri) ;;
                try_catch
                  (emit (Call (str "MediaLibrary.getAlbumAsync")) ;;
                   album <- await (getAlbumAsync d) ;;
                   match album with
                   | None =>
                       emit (Call (str "MediaLibrary.createAlbumAsync")) ;;
                       await (createAlbumAsync d)
                   | Some _ =>
                       emit (Call (str "MediaLibrary.addAssetsToAlbumAsync")) ;;
                       await (addAssetsToAlbumAsync d)
                   end)
                  (fun albumError =>
                     emit (console_log
                       [str "Album creation failed, but photo was saved:"]
                       albumError)) ;;
                emit (Alert_alert (str "Success!")
                  (str "Photo saved to gallery successfully!")) ;;
                emit (Call (str "console.log"))
            | None => ret tt
            end)
         (fun error =>
            emit (console_error (str "Error taking picture:") error) ;;
            emit (Alert_alert (str "Error")
              (str "Failed to take picture. Please try again."))))
      (setIsCapturing false).

(** Sample data. *)
Module Sample.
Definition a_photo : Gallery.Asset.t :=
  Gallery.Asset.mk (str "7") (str "ph://7") 9 (str "7.jpg").

(** A camera whose album calls are rejected. *)
Definition a_camera_without_album : device :=
  mkDevice true true (Returned Gallery.granted)
    (Returned (Some (str "file:///shot.jpg"))) (fun _ => Returned a_photo)
    (Thrown (Rejected (str "no album"))) (Returned tt) (Returned tt).

(** A camera that is refused the photo library. *)
Definition a_refused_camera : device :=
  mkDevice true false (Returned Gallery.denied)
    (Returned (Some (str "file:///shot.jpg"))) (fun _ => Returned a_photo)
    (Returned None) (Returned tt) (Returned tt).
End Sample.

End Camera.

(** ** The map screen *)

Module MapScreen.
Import JS JS.Notations.
Import Memories(blob, Serialized, OtherJson, NotJson,
  EmptyText, json, JArray, JOther, by_timestamp, blob_truthy,
  filter_Boolean, PermissionStatus, granted, denied, undetermined,
  is_granted).

(** [interface LocationData] *)
Module LocationData.
Record t := mk {
  latitude : Q;
  longitude : Q;
  altitude : option Q;
  accuracy : option Q;
  speed : option Q;
  heading : option Q
}.
End LocationData.

(** The [useState] cells of the screen, and the storage entry it reads. *)
Record world := mkWorld {
  location : option LocationData.t;
  memories : list Memories.LocationMemory.t;
  loading : bool;
  address : jsstring;
  lastUpdated : option Z;
  selectedMemory : option Memories.LocationMemory.t;
  modalVisible : bool;
  showMap : bool;
  AsyncStorage : option blob
}.

(** The screen when it mounts. *)
Definition initial (stored : option blob) : world :=
  mkWorld None [] true [] None None false true stored.

Definition setLocation (l : option LocationData.t) : M world unit :=
  modify (fun w => mkWorld l (memories w) (loading w) (address w)
    (lastUpdated w) (selectedMemory w) (modalVisible w) (showMap w)
    (AsyncStorage w)).

Definition setMemories (l : list Memories.LocationMemory.t) : M world unit :=
  modify (fun w => mkWorld (location w) l (loading w) (address w)
    (lastUpdated w) (selectedMemory w) (modalVisible w) (showMap w)
    (AsyncStorage w)).

Definition setLoading (b : bool) : M world unit :=
  modify (fun w => mkWorld (location w) (memories w) b (address w)
    (lastUpdated w) (selectedMemory w) (modalVisible w) (showMap w)
    (AsyncStorage w)).

Definition setAddress (s : jsstring) : M world unit :=
  modify (fun w => mkWorld (location w) (memories w) (loading w) s
    (lastUpdated w) (selectedMemory w) (modalVisible w) (showMap w)
    (AsyncStorage w)).

Definition setLastUpdated (t : option Z) : M world unit :=
  modify (fun w => mkWorld (location w) (memories w) (loading w) (address w)
    t (selectedMemory w) (modalVisible w) (showMap w) (AsyncStorage w)).

Definition setSelectedMemory (m : option Memories.LocationMemory.t)
    : M world unit :=
  modify (fun w => mkWorld (location w) (memories w) (loading w) (address w)
    (lastUpdated w) m (modalVisible w) (showMap w) (AsyncStorage w)).

Definition setModalVisible (b : bool) : M world unit :=
  modify (fun w => mkWorld (location w) (memories w) (loading w) (address w)
    (lastUpdated w) (selectedMemory w) b (showMap w) (AsyncStorage w)).

Definition AsyncStorage_getItem (fails : option exn) : M world (option blob) :=
  emit (Call (str "AsyncStorage.getItem")) ;;
  match fails with
  | Some e => throw e
  | None => gets AsyncStorage
  end.

Definition JSON_parse (s : blob) : M world json :=
  match s with
  | Serialized l => ret (JArray l)
  | OtherJson => ret JOther
  | NotJson | EmptyText => throw SyntaxError
  end.

Definition parsed_sort (parsed : json)
    : M world (list Memories.LocationMemory.t) :=
  match parsed with
  | JArray l => ret (sort by_timestamp l)
  | JOther => throw TypeError
  end.

Definition loadMemories (getItem : option exn) : M world unit :=
  try_catch
    (stored <- AsyncStorage_getItem getItem ;;
     match stored with
     | Some s =>
         if blob_truthy s then
           parsed <- JSON_parse s ;;
           sorted <- parsed_sort parsed ;;
           setMemories sorted
         else ret tt
     | None => ret tt
     end)
    (fun error => emit (console_error (str "Error loading memories:") error)).

(** The fields of a geocoded place the screen reads. *)
Record GeocodedAddress := mkAddress {
  streetNumber : option jsstring;
  street : option jsstring;
  city : option jsstring;
  region : option jsstring;
  country : option jsstring
}.

(** What the device answers during one run of [getCurrentLocation];
    [Date_now] is the reading behind [new Date()]. *)
Record device := mkDevice {
  requestForegroundPermissionsAsync : outcome PermissionStatus;
  getCurrentPositionAsync : outcome LocationData.t;
  reverseGeocodeAsync : Q -> Q -> outcome (list GeocodedAddress);
  Date_now : Z
}.

(** One run, up to the alert it may end on; the Retry button of that alert
    starts another run. *)
Definition getCurrentLocation (d : device) : M world unit :=
  try_finally
    (try_catch
       (setLoading true ;;
        emit (Call (str "Location.requestForegroundPermissionsAsync")) ;;
        status <- await (requestForegroundPermissionsAsync d) ;;
        if negb (is_granted status) then
          emit (Alert_alert (str "Permission Denied")
            (str "Location permission is required to show your location.")) ;;
          setLoading false
        else
          emit (Call (str "Location.getCurrentPositionAsync")) ;;
          coords <- await (getCurrentPositionAsync d) ;;
          let locationData :=
            LocationData.mk (LocationData.latitude coords)
              (LocationData.longitude coords) (LocationData.altitude coords)
              (LocationData.accuracy coords) (LocationData.speed coords)
              (LocationData.heading coords) in
          setLocation (Some locationData) ;;
          setLastUpdated (Some (Date_now d)) ;;
          try_catch
            (emit (Call (str "Location.reverseGeocodeAsync")) ;;
             reverseGeocode <-
               await (reverseGeocodeAsync d (LocationData.latitude coords)
                        (LocationData.longitude coords)) ;;
             match reverseGeocode with
             | addr :: _ =>
                 let formattedAddress :=
                   join (str ", ")
                     (filter_Boolean
                        [streetNumber addr; street addr; city addr;
                         region addr; country addr]) in
                 setAddress formattedAddress
             | [] => ret tt
             end)
            (fun reverseGeoError =>
               emit (console_log [str "Error getting address:"]
                 reverseGeoError)))
       (fun error =>
          emit (console_error (str "Error getting location:") error) ;;
          emit (Alert_alert (str "Location Error")
            (str "Unable to get your current location. Please try again."))))
    (setLoading false).

Definition openMemoryDetails (memory : Memories.LocationMemory.t)
    : M world unit :=
  setSelectedMemory (Some memory) ;;
  setModalVisible true.

(** The text a web view posts, told apart by what [JSON.parse] makes of it
    and by what the handler reads of the value. *)
Inductive message :=
| NotJsonText (* rejected by [JSON.parse] *)
| JsonNull    (* [null]: reading [data.type] throws *)
| JsonValue (type memoryId : option jsstring).
  (* any other value; its [type] and [memoryId] where they are strings *)

Definition is_openMemory (type : option jsstring) : bool :=
  match type with
  | Some s => jsstring_eqb s (str "openMemory")
  | None => false
  end.

(** [m.id === data.memoryId] *)
Definition has_id (memoryId : option jsstring)
    (m : Memories.LocationMemory.t) : bool :=
  match memoryId with
  | Some i => jsstring_eqb (Memories.LocationMemory.id m) i
  | None => false
  end.

(** The [onMessage] handler of the web view. *)
Definition onMessage (data : message) : M world unit :=
  try_catch
    (match data with
     | NotJsonText => throw SyntaxError
     | JsonNull => throw TypeError
     | JsonValue type memoryId =>
         if is_openMemory type then
           memories0 <- gets memories ;;
           match find (has_id memoryId) memories0 with
           | Some memory => openMemoryDetails memory
           | None => ret tt
           end
         else ret tt
     end)
    (fun error =>
       emit (console_log [str "Error parsing WebView message:"] error)).

(** Sample data. *)
Module Sample.
(** A fix with nothing but the coordinates. *)
Definition a_fix : LocationData.t :=
  LocationData.mk 40 (-73) None None None None.

(** A device that fixes the position, with the geocoder out of reach. *)
Definition a_device : device :=
  mkDevice (Returned granted) (Returned a_fix)
    (fun _ _ => Thrown (Rejected (str "geocoder unreachable")))
    1700000000000.

(** The screen showing an earlier fix and its address. *)
Definition an_earlier_view : world :=
  mkWorld (Some (LocationData.mk 42 (-71) None None None None))
    [Memories.Sample.newer; Memories.Sample.older] false (str "Main St")
    (Some 1600000000000) None false true None.
End Sample.

End MapScreen.

(** ** What a trace shows *)

Module Observations.
Import JS.

(** The alerts of a trace, oldest first. *)
Fixpoint alerts (t : list event) : list (jsstring * jsstring) :=
  match t with
  | [] => []
  | Alert_alert title message :: t' => (title, message) :: alerts t'
  | _ :: t' => alerts t'
  end.

(** The device interfaces a trace calls, oldest first. *)
Fixpoint calls (t : list event) : list jsstring :=
  match t with
  | [] => []
  | Call api :: t' => api :: calls t'
  | _ :: t' => calls t'
  end.

End Observations.

(** ** Facts about the sort *)

Module SortFacts.
Import JS.

Section Descending.
Context {A : Type} (key : A -> Z) (comparefn : A -> A -> Z).
Hypothesis comparefn_key : forall a b, comparefn a b = key b - key a.

Let later_first (a b : A) : Prop := key b <= key a.

Lemma sort_insert_Permutation x l :
  Permutation (sort_insert comparefn x l) (x :: l).
Proof.
  induction l as [|y l IH]; simpl; [reflexivity|].
  destruct (comparefn x y <=? 0); [reflexivity|].
  rewrite IH. apply perm_swap.
Qed.

Lemma sort_Permutation l : Permutation (sort comparefn l) l.
Proof.
  induction l as [|x l IH]; simpl; [constructor|].
  rewrite sort_insert_Permutation. now constructor.
Qed.

Lemma sort_insert_sorted x l :
  StronglySorted later_first l ->
  StronglySorted later_first (sort_insert comparefn x l).
Proof.
  induction 1 as [|y l Hl IH Hy]; simpl.
  - repeat constructor.
  - destruct (Z.leb_spec (comparefn x y) 0) as [Hle|Hgt];
      rewrite comparefn_key in *.
    + constructor; [now constructor|].
      constructor; [unfold later_first; lia|].
      eapply Forall_impl; [|exact Hy].
      unfold later_first; intros; lia.
    + constructor; [exact IH|].
      eapply Permutation_Forall;
        [symmetry; apply sort_insert_Permutation|].
      constructor; [unfold later_first; lia|exact Hy].
Qed.

Lemma sort_sorted l : StronglySorted later_first (sort comparefn l).
Proof.
  induction l as [|x l IH]; simpl; [constructor|].
  now apply sort_insert_sorted.
Qed.

(** A list already in order is left as it is. *)
Lemma sort_of_sorted l :
  StronglySorted later_first l -> sort comparefn l = l.
Proof.
  induction 1 as [|x l Hl IH Hx]; simpl; [reflexivity|].
  rewrite IH. destruct Hx as [|y l' Hy _]; simpl; [reflexivity|].
  destruct (Z.leb_spec (comparefn x y) 0) as [_|Hgt]; [reflexivity|].
  rewrite comparefn_key in Hgt. unfold later_first in Hy. lia.
Qed.

Lemma sort_idempotent l :
  sort comparefn (sort comparefn l) = sort comparefn l.
Proof. apply sort_of_sorted, sort_sorted. Qed.

(** Stability: the elements of one key keep the order they came in. An
    element inserted passes only elements of a strictly larger key. *)
Lemma sort_insert_stable t x l :
  filter (fun a => key a =? t) (sort_insert comparefn x l)
  = filter (fun a => key a =? t) (x :: l).
Proof.
  induction l as [|y l IH]; [reflexivity|].
  cbn [sort_insert].
  destruct (Z.leb_spec (comparefn x y) 0) as [_|Hgt]; [reflexivity|].
  rewrite comparefn_key in Hgt.
  cbn [filter] in *.
  destruct (Z.eqb_spec (key x) t), (Z.eqb_spec (key y) t);
    try lia; rewrite IH; reflexivity.
Qed.

Lemma sort_stable t l :
  filter (fun a => key a =? t) (sort comparefn l)
  = filter (fun a => key a =? t) l.
Proof.
  induction l as [|x l IH]; [reflexivity|].
  cbn [sort fold_right]. rewrite sort_insert_stable.
  cbn [filter]. fold (sort comparefn l). now rewrite IH.
Qed.

Lemma filter_sorted (f : A -> bool) l :
  StronglySorted later_first l -> StronglySorted later_first (filter f l).
Proof.
  induction 1 as [|x l Hl IH Hx]; simpl; [constructor|].
  destruct (f x); [|exact IH].
  constructor; [exact IH|].
  apply Forall_forall. intros y Hy.
  apply filter_In in Hy as [Hy _].
  revert y Hy. now apply Forall_forall.
Qed.

Lemma filter_key_above x t l :
  Forall (later_first x) l -> key x < t ->
  filter (fun a => key a =? t) l = [].
Proof.
  induction 1 as [|y l Hy _ IH]; intros Ht; cbn [filter]; [reflexivity|].
  unfold later_first in Hy.
  destruct (Z.eqb_spec (key y) t); [lia|auto].
Qed.

(** Two lists in order that agree on the elements of every key are the
    same list: order and stability leave a sort no freedom. *)
Lemma sorted_stable_unique l1 : forall l2,
  StronglySorted later_first l1 -> StronglySorted later_first l2 ->
  (forall t, filter (fun a => key a =? t) l1
             = filter (fun a => key a =? t) l2) ->
  l1 = l2.
Proof.
  induction l1 as [|x l1 IH]; intros [|y l2] H1 H2 Hsame.
  - reflexivity.
  - specialize (Hsame (key y)). cbn [filter] in Hsame.
    rewrite Z.eqb_refl in Hsame. discriminate Hsame.
  - specialize (Hsame (key x)). cbn [filter] in Hsame.
    rewrite Z.eqb_refl in Hsame. discriminate Hsame.
  - inversion H1 as [|? ? H1' Hx]; inversion H2 as [|? ? H2' Hy]; subst.
    assert (Hkey : key x = key y).
    { destruct (Z.lt_trichotomy (key x) (key y)) as [Hlt|[Heq|Hgt]];
        [exfalso|exact Heq|exfalso].
      - specialize (Hsame (key y)). cbn [filter] in Hsame.
        rewrite Z.eqb_refl in Hsame.
        destruct (Z.eqb_spec (key x) (key y)); [lia|].
        rewrite (filter_key_above x (key y) l1 Hx Hlt) in Hsame.
        discriminate Hsame.
      - specialize (Hsame (key x)). cbn [filter] in Hsame.
        rewrite Z.eqb_refl in Hsame.
        destruct (Z.eqb_spec (key y) (key x)); [lia|].
        rewrite (filter_key_above y (key x) l2 Hy) in Hsame by lia.
        discriminate Hsame. }
    assert (Hhead : x = y).
    { specialize (Hsame (key x)). cbn [filter] in Hsame.
      rewrite <- Hkey, Z.eqb_refl in Hsame. now injection Hsame. }
    subst y. f_equal. apply IH; auto.
    intros t. specialize (Hsame t). cbn [filter] in Hsame.
    destruct (key x =? t); [now injection Hsame|exact Hsame].
Qed.

(** Whatever stable sort the engine runs, it returns what [sort] does. *)
Lemma stable_sort_unique (sorted : list A) l :
  StronglySorted later_first sorted ->
  (forall t, filter (fun a => key a =? t) sorted
             = filter (fun a => key a =? t) l) ->
  sorted = sort comparefn l.
Proof.
  intros Hsorted Hstable.
  apply sorted_stable_unique; [exact Hsorted|apply sort_sorted|].
  intros t. rewrite Hstable. symmetry. apply sort_stable.
Qed.
End Descending.

End SortFacts.

(** ** Facts about strings and maps *)

Module JSFacts.
Import JS.

Lemma jsstring_eqb_eq a b : jsstring_eqb a b = true <-> a = b.
Proof.
  unfold jsstring_eqb. destruct (list_eq_dec N.eq_dec a b); split; congruence.
Qed.

Lemma jsstring_eqb_refl a : jsstring_eqb a a = true.
Proof. now apply jsstring_eqb_eq. Qed.

Section MapFacts.
Context {V : Type}.
Implicit Types (m : Map V) (k : jsstring) (v : V).

(** [set] appends a new key and leaves the keys alone otherwise. *)
Lemma Map_set_keys k v m :
  map fst (Map_set k v m)
  = if in_dec (list_eq_dec N.eq_dec) k (map fst m)
    then map fst m else map fst m ++ [k].
Proof.
  induction m as [|[k' v'] m IH]; cbn [Map_set map fst]; [reflexivity|].
  destruct (jsstring_eqb k' k) eqn:Hk.
  - apply jsstring_eqb_eq in Hk. subst k'.
    destruct (in_dec (list_eq_dec N.eq_dec) k (k :: map fst m)) as [_|Hno];
      [reflexivity|].
    destruct Hno. now left.
  - assert (k' <> k) by (intros ->; now rewrite jsstring_eqb_refl in Hk).
    cbn [map fst]. rewrite IH.
    destruct (in_dec (list_eq_dec N.eq_dec) k (map fst m)) as [Hin|Hno],
             (in_dec (list_eq_dec N.eq_dec) k (k' :: map fst m)) as [Hin'|Hno'];
      try reflexivity.
    + destruct Hno'. now right.
    + destruct Hin' as [?|?]; [congruence|contradiction].
Qed.

Lemma Map_set_NoDup k v m :
  NoDup (map fst m) -> NoDup (map fst (Map_set k v m)).
Proof.
  intros Hm. rewrite Map_set_keys.
  destruct (in_dec (list_eq_dec N.eq_dec) k (map fst m)) as [_|Hno];
    [exact Hm|].
  apply NoDup_app; [exact Hm|repeat constructor; intros []|].
  intros x Hx [<-|[]]. contradiction.
Qed.

(** The entries after a [set]: the one written, and the others as before. *)
Lemma Map_set_In k v m k0 v0 :
  NoDup (map fst m) ->
  In (k0, v0) (Map_set k v m) <->
  (k0 = k /\ v0 = v) \/ (k0 <> k /\ In (k0, v0) m).
Proof.
  induction m as [|[k' v'] m IH]; cbn [Map_set map fst]; intros Hm.
  - cbn [In]. split.
    + intros [[= <- <-]|[]]. now left.
    + intros [[-> ->]|[_ []]]. now left.
  - inversion Hm as [|? ? Hk' Hm']; subst.
    destruct (jsstring_eqb k' k) eqn:Hk.
    + apply jsstring_eqb_eq in Hk. subst k'. cbn [In]. split.
      * intros [[= <- <-]|Hin]; [now left|]. right. split; [|now right].
        intros ->. apply Hk'. now apply (in_map fst) in Hin.
      * intros [[-> ->]|[Hne [[= ? ?]|Hin]]];
          [now left|congruence|now right].
    + assert (k' <> k) by (intros ->; now rewrite jsstring_eqb_refl in Hk).
      cbn [In]. rewrite (IH Hm'). split.
      * intros [[= <- <-]|[?|[? ?]]]; [right; split; auto|now left|].
        right; split; auto.
      * intros [[-> ->]|[Hne [[= <- <-]|Hin]]]; [right; now left|now left|].
        right; right. split; assumption.
Qed.
End MapFacts.

End JSFacts.

(** ** The record store *)

Module StoreFacts.
Import JS Memories SortFacts JSFacts.

(** Runs a modelled function on the world of the goal. *)
Ltac exec_step :=
  cbv beta iota zeta delta
    [after result trace fst snd bind try_catch try_finally emit gets modify
     await ret throw perform loadMemories saveMemories createMemory
     deleteMemory getCurrentLocation AsyncStorage_getItem AsyncStorage_setItem
     JSON_parse JSON_stringify parsed_sort blob_truthy setMemories setLoading
     setTitle setDescription setSelectedEmoji setCapturedPhoto setModalVisible
     is_granted app memories modalVisible loading title description
     selectedEmoji capturedPhoto AsyncStorage persisted
     requestForegroundPermissionsAsync getCurrentPositionAsync
     reverseGeocodeAsync Date_now setItem];
  cbn [negb].

Ltac exec := exec_step; repeat (progress exec_step).

Lemma by_timestamp_key a b :
  by_timestamp a b = LocationMemory.timestamp b - LocationMemory.timestamp a.
Proof. reflexivity. Qed.

Lemma sort_newest_first l : newest_first (sort by_timestamp l).
Proof. exact (sort_sorted _ _ by_timestamp_key l). Qed.

Lemma sort_of_newest_first l : newest_first l -> sort by_timestamp l = l.
Proof. exact (sort_of_sorted _ _ by_timestamp_key l). Qed.

Lemma filter_newest_first f l : newest_first l -> newest_first (filter f l).
Proof. exact (filter_sorted LocationMemory.timestamp f l). Qed.

(** A write that goes through: the text stored is that of the list as
    given, the list published is the sorted one. *)
Lemma saveMemories_resolved l w :
  saveMemories None l w =
  (Returned tt,
   mkWorld (sort by_timestamp l) (modalVisible w) (loading w) (title w)
     (description w) (selectedEmoji w) (capturedPhoto w)
     (Some (Serialized l)),
   [Call (str "AsyncStorage.setItem")]).
Proof. reflexivity. Qed.

Lemma saveMemories_rejected e l w :
  saveMemories (Some e) l w =
  (Returned tt, w,
   [Call (str "AsyncStorage.setItem");
    console_error (str "Error saving memories:") e;
    Alert_alert (str "Error") (str "Failed to save memory")]).
Proof. reflexivity. Qed.

Lemma saveMemories_memories s l w :
  memories (after (saveMemories s l) w)
  = match s with None => sort by_timestamp l | Some _ => memories w end.
Proof. destruct s; reflexivity. Qed.

Lemma loadMemories_memories g w :
  memories (after (loadMemories g) w)
  = match g, AsyncStorage w with
    | None, Some (Serialized l) => sort by_timestamp l
    | _, _ => memories w
    end.
Proof. destruct g, w as [ms mv ld ti de em ph [[]|]]; reflexivity. Qed.

Lemma loadMemories_storage g w :
  AsyncStorage (after (loadMemories g) w) = AsyncStorage w.
Proof. destruct g, w as [ms mv ld ti de em ph [[]|]]; reflexivity. Qed.

Lemma loadMemories_returns g w : result (loadMemories g) w = Returned tt.
Proof. destruct g, w as [ms mv ld ti de em ph [[]|]]; reflexivity. Qed.

Lemma deleteMemory_memories b s i w :
  memories (after (deleteMemory b s i) w)
  = match b, s with
    | Delete, None =>
        sort by_timestamp
          (filter (fun m => negb (jsstring_eqb (LocationMemory.id m) i))
             (memories w))
    | _, _ => memories w
    end.
Proof. destruct b, s; reflexivity. Qed.

Lemma deleteMemory_persisted i w :
  persisted (after (deleteMemory Delete None i) w)
  = filter (fun m => negb (jsstring_eqb (LocationMemory.id m) i)) (memories w).
Proof. reflexivity. Qed.

(** [createMemory] leaves the collection alone or publishes it with one
    record more, the one built from the form, the clock and the position. *)
Lemma createMemory_appends d w :
  memories (after (createMemory d) w) = memories w \/
  exists lat lon,
    getCurrentPositionAsync d = Returned (lat, lon) /\
    memories (after (createMemory d) w)
    = sort by_timestamp
        (LocationMemory.mk (toString (fst (Date_now d))) (trim (title w))
           (trim (description w)) (selectedEmoji w)
           (or_undefined (capturedPhoto w))
           (Loc.mk lat lon (Some (address_of (reverseGeocodeAsync d lat lon))))
           (snd (Date_now d))
         :: memories w).
Proof.
  destruct d as [perm pos rg now si], w as [ms mv ld ti de em ph st].
  exec.
  destruct (truthy (trim ti)); exec; [|now left].
  destruct perm as [[]|]; exec; try now left.
  destruct pos as [[lat lon]|]; exec; try now left.
  destruct si; [left|right; exists lat, lon; split; [reflexivity|]];
    destruct (rg lat lon) as [[|a ?]|]; reflexivity.
Qed.

(** A blank title stops [createMemory] at the first line. *)
Lemma createMemory_blank d w :
  trim (title w) = [] ->
  createMemory d w =
    (Returned tt, w,
     [Alert_alert (str "Required")
        (str "Please enter a title for your memory")]).
Proof.
  intros Hblank. destruct w as [ms mv ld ti de em ph st].
  cbn [title] in Hblank. exec. now rewrite Hblank.
Qed.

(** The pickers leave the collection and the storage alone. *)
Lemma pickers_keep_store p w :
  (memories (after (pickImage p) w) = memories w /\
   AsyncStorage (after (pickImage p) w) = AsyncStorage w) /\
  (memories (after (takePhoto p) w) = memories w /\
   AsyncStorage (after (takePhoto p) w) = AsyncStorage w).
Proof.
  destruct p as [perm launch], w as [ms mv ld ti de em ph st].
  destruct perm as [[]|e]; try (now repeat split).
  destruct launch as [[[] [[|a rest]|]]|e]; now repeat split.
Qed.

(** So does every edit of the form. *)
Lemma edits_keep_store o w :
  match o with
  | load _ | save _ _ | append _ | remove _ _ _ => True
  | _ =>
      memories (after (perform o) w) = memories w /\
      AsyncStorage (after (perform o) w) = AsyncStorage w
  end.
Proof.
  destruct o as [g|s l|d|b s i|text|text|emoji|p|p| |visible];
    try exact I; try (destruct w; now split); cbn [perform];
    apply pickers_keep_store.
Qed.

Lemma perform_newest_first o w :
  newest_first (memories w) -> newest_first (memories (after (perform o) w)).
Proof.
  intros Hw. pose proof (edits_keep_store o w) as Hedit.
  destruct o as [g|s l|d|b s i|text|text|emoji|p|p| |visible];
    try (now rewrite (proj1 Hedit)); cbn [perform].
  - rewrite loadMemories_memories.
    destruct g, (AsyncStorage w) as [[]|]; auto using sort_newest_first.
  - rewrite saveMemories_memories. destruct s; auto using sort_newest_first.
  - destruct (createMemory_appends d w) as [->|(lat & lon & _ & ->)];
      auto using sort_newest_first.
  - rewrite deleteMemory_memories. destruct b, s; auto using sort_newest_first.
Qed.

Lemma run_newest_first ops : forall w,
  newest_first (memories w) -> newest_first (memories (run ops w)).
Proof.
  induction ops as [|o ops IH]; intros w Hw; cbn [run]; [exact Hw|].
  now apply IH, perform_newest_first.
Qed.

(** A load that follows a save changes nothing. *)
Lemma load_after_save l w g :
  after (loadMemories g) (after (saveMemories None l) w)
  = after (saveMemories None l) w.
Proof. destruct g, w as [ms mv ld ti de em ph st]; reflexivity. Qed.

Lemma repeated_loads l n : forall w,
  AsyncStorage w = Some (Serialized l) ->
  memories (run (repeat (load None) (S n)) w) = sort by_timestamp l.
Proof.
  induction n as [|n IH]; intros w Hw.
  - cbn [repeat run perform]. rewrite loadMemories_memories. now rewrite Hw.
  - change (repeat (load None) (S (S n)))
      with (load None :: repeat (load None) (S n)).
    cbn [run perform]. apply IH.
    now rewrite loadMemories_storage.
Qed.

Lemma filter_absent_id i l :
  ~ In i (map LocationMemory.id l) ->
  filter (fun m => negb (jsstring_eqb (LocationMemory.id m) i)) l = l.
Proof.
  induction l as [|m l IH]; cbn [map In filter]; intros Hno; [reflexivity|].
  destruct (jsstring_eqb (LocationMemory.id m) i) eqn:Heq.
  - apply jsstring_eqb_eq in Heq. exfalso. apply Hno. now left.
  - cbn [negb]. rewrite IH; [reflexivity|]. intros Hin. apply Hno. now right.
Qed.

End StoreFacts.

(** ** The gallery *)

Module GalleryFacts.
Import JS Gallery SortFacts JSFacts.

Ltac exec_step :=
  cbv beta iota zeta delta
    [after result trace fst snd bind try_catch try_finally emit gets modify
     await ret throw getPhotoInfo setPhotos setLoading is_granted app
     photos loading selectedPhoto modalVisible
     permission_granted requestPermission getAlbumAsync getAssetsAsync
     getAssetInfoAsync];
  cbn [negb].

Ltac exec := exec_step; repeat (progress exec_step).

Lemma photoMap_filled allPhotos recentPhotos :
  photoMap allPhotos recentPhotos = filled (rev (allPhotos ++ recentPhotos)).
Proof.
  unfold photoMap, filled. rewrite <- fold_left_rev_right.
  reflexivity.
Qed.

Lemma filled_NoDup r : NoDup (map fst (filled r)).
Proof.
  induction r as [|p r IH]; cbn [filled fold_right]; [constructor|].
  now apply Map_set_NoDup.
Qed.

(** An entry of the map is the photo that was set last under its key. *)
Lemma filled_In r k v :
  In (k, v) (filled r) <->
  find (fun p => jsstring_eqb (Photo.id p) k) r = Some v.
Proof.
  induction r as [|p r IH]; cbn [filled fold_right find].
  - split; [intros []|discriminate].
  - fold (filled r). rewrite (Map_set_In _ _ _ _ _ (filled_NoDup r)), IH.
    destruct (jsstring_eqb (Photo.id p) k) eqn:Hk.
    + apply jsstring_eqb_eq in Hk. split.
      * intros [[_ ->]|[Hne _]]; [reflexivity|congruence].
      * intros [= ->]. left. now split.
    + assert (k <> Photo.id p)
        by (intros ->; now rewrite jsstring_eqb_refl in Hk).
      split; [intros [[? _]|[_ ?]]; [contradiction|assumption]|].
      intros ?. right. now split.
Qed.

Lemma filled_keyed r k v : In (k, v) (filled r) -> Photo.id v = k.
Proof.
  rewrite filled_In. intros Hfind. apply find_some in Hfind as [_ Hk].
  now apply jsstring_eqb_eq.
Qed.

Lemma filled_ids r : map Photo.id (Map_values (filled r)) = map fst (filled r).
Proof.
  unfold Map_values. rewrite map_map. apply map_ext_in.
  intros [k v] Hin. exact (filled_keyed _ _ _ Hin).
Qed.

Lemma by_creationTime_key a b :
  by_creationTime a b = Photo.creationTime b - Photo.creationTime a.
Proof. reflexivity. Qed.

Lemma uniquePhotos_Permutation allPhotos recentPhotos :
  Permutation (uniquePhotos allPhotos recentPhotos)
    (Map_values (filled (rev (allPhotos ++ recentPhotos)))).
Proof.
  unfold uniquePhotos. rewrite photoMap_filled. apply sort_Permutation.
Qed.

Lemma uniquePhotos_NoDup allPhotos recentPhotos :
  NoDup (map Photo.id (uniquePhotos allPhotos recentPhotos)).
Proof.
  eapply Permutation_NoDup.
  - symmetry. apply Permutation_map, uniquePhotos_Permutation.
  - rewrite filled_ids. apply filled_NoDup.
Qed.

Lemma uniquePhotos_newest_first allPhotos recentPhotos :
  newest_first (uniquePhotos allPhotos recentPhotos).
Proof. exact (sort_sorted _ _ by_creationTime_key _). Qed.

Lemma uniquePhotos_In allPhotos recentPhotos p :
  In p (uniquePhotos allPhotos recentPhotos) <->
  last_with_id (Photo.id p) (allPhotos ++ recentPhotos) = Some p.
Proof.
  unfold last_with_id. rewrite <- filled_In. split.
  - intros Hin.
    apply (Permutation_in _ (uniquePhotos_Permutation _ _)) in Hin.
    unfold Map_values in Hin. apply in_map_iff in Hin as [[k v] [Hv Hin]].
    cbn in Hv. subst v. now rewrite (filled_keyed _ _ _ Hin).
  - intros Hin.
    apply (Permutation_in _ (Permutation_sym (uniquePhotos_Permutation _ _))).
    unfold Map_values. now apply (in_map snd) in Hin.
Qed.

Lemma uniquePhotos_ids allPhotos recentPhotos k :
  In k (map Photo.id (uniquePhotos allPhotos recentPhotos)) <->
  In k (map Photo.id (allPhotos ++ recentPhotos)).
Proof.
  rewrite !in_map_iff. split.
  - intros [p [Hk Hin]]. exists p. split; [exact Hk|].
    apply uniquePhotos_In in Hin. unfold last_with_id in Hin.
    apply find_some in Hin as [Hin _]. now apply in_rev.
  - intros [p [Hk Hin]].
    destruct (last_with_id k (allPhotos ++ recentPhotos)) as [p'|] eqn:Hlast.
    + pose proof Hlast as Hid. unfold last_with_id in Hid.
      apply find_some in Hid as [_ Hid]. apply jsstring_eqb_eq in Hid.
      exists p'. split; [exact Hid|].
      apply uniquePhotos_In. now rewrite Hid.
    + unfold last_with_id in Hlast.
      apply in_rev in Hin. apply (find_none _ _ Hlast p) in Hin.
      rewrite Hk, jsstring_eqb_refl in Hin. discriminate Hin.
Qed.

(** One asset: a photo comes back whatever the device answers, and the
    world is as it was. *)
Lemma getPhotoInfo_returns f asset :
  exists p t,
    (forall w, getPhotoInfo f asset w = (Returned p, w, t)) /\
    Photo.id p = Asset.id asset /\
    Photo.creationTime p = Asset.creationTime asset /\
    Photo.filename p = Asset.filename asset /\
    (forall e, f asset = Thrown e ->
       Photo.uri p = Asset.uri asset /\ Photo.localUri p = None) /\
    (forall info, f asset = Returned info ->
       Photo.uri p = or_else (AssetInfo.localUri info) (Asset.uri asset)).
Proof.
  exec. destruct (f asset) as [info|e]; do 2 eexists;
    (split; [reflexivity|]); repeat split; cbn; congruence.
Qed.

(** A batch, numbered from [k]. *)
Lemma Promise_all_getPhotoInfo (f : nat -> Asset.t -> outcome AssetInfo.t)
    assets : forall k,
  exists photos t,
    (forall w,
       Promise_all_map (fun ia => getPhotoInfo (f (fst ia)) (snd ia))
         (combine (seq k (List.length assets)) assets) w
       = (Returned photos, w, t)) /\
    map Photo.id photos = map Asset.id assets /\
    forall i asset, nth_error assets i = Some asset ->
      exists p, nth_error photos i = Some p /\
        Photo.id p = Asset.id asset /\
        Photo.creationTime p = Asset.creationTime asset /\
        Photo.filename p = Asset.filename asset /\
        (forall e, f (k + i)%nat asset = Thrown e ->
           Photo.uri p = Asset.uri asset /\ Photo.localUri p = None) /\
        (forall info, f (k + i)%nat asset = Returned info ->
           Photo.uri p = or_else (AssetInfo.localUri info) (Asset.uri asset)).
Proof.
  induction assets as [|asset assets IH]; intros k.
  - exists [], []. repeat split. intros [|i] asset H; discriminate H.
  - cbn [List.length seq combine Promise_all_map].
    destruct (getPhotoInfo_returns (f k) asset)
      as (p & t & Hrun & Hid & Htime & Hname & Hfail & Hok).
    destruct (IH (S k)) as (ps & ts & Hruns & Hids & Hnth).
    exists (p :: ps), (t ++ ts ++ [])%list.
    split; [|split].
    + intros w. unfold bind at 1. cbn [fst snd]. rewrite Hrun.
      unfold bind at 1. rewrite Hruns. reflexivity.
    + cbn [map]. now rewrite Hid, Hids.
    + intros [|i] a Ha; cbn [nth_error] in *.
      * injection Ha as <-. exists p. rewrite Nat.add_0_r.
        split; [reflexivity|].
        exact (conj Hid (conj Htime (conj Hname (conj Hfail Hok)))).
      * destruct (Hnth i a Ha) as (p' & Hp' & H').
        exists p'. split; [exact Hp'|].
        now replace (k + S i)%nat with (S k + i)%nat by lia.
Qed.

Lemma getPhotoInfos_returns d q assets :
  exists photos t,
    (forall w, getPhotoInfos d q assets w = (Returned photos, w, t)) /\
    map Photo.id photos = map Asset.id assets /\
    forall i asset, nth_error assets i = Some asset ->
      exists p, nth_error photos i = Some p /\
        Photo.id p = Asset.id asset /\
        Photo.creationTime p = Asset.creationTime asset /\
        Photo.filename p = Asset.filename asset /\
        (forall e, getAssetInfoAsync d q i asset = Thrown e ->
           Photo.uri p = Asset.uri asset /\ Photo.localUri p = None) /\
        (forall info, getAssetInfoAsync d q i asset = Returned info ->
           Photo.uri p = or_else (AssetInfo.localUri info) (Asset.uri asset)).
Proof.
  exact (Promise_all_getPhotoInfo (getAssetInfoAsync d q) assets 0%nat).
Qed.

(** With the permission granted and the roll read, [loadPhotos] publishes
    the merge of what the album gave, if anything, and the photos of the
    roll. *)
Lemma loadPhotos_publishes d w assets recentPhotos t :
  permission_granted d = true ->
  getAssetsAsync d roll_query = Returned assets ->
  (forall w', getPhotoInfos d roll_query assets w'
              = (Returned recentPhotos, w', t)) ->
  exists allPhotos,
    photos (after (loadPhotos d) w) = uniquePhotos allPhotos recentPhotos.
Proof.
  intros Hgranted Hroll Hrecent.
  destruct (getPhotoInfos_returns d album_query
              match getAssetsAsync d album_query with
              | Returned albumAssets => albumAssets
              | Thrown _ => []
              end) as (albumPhotos & ta & Halbum & _).
  destruct d as [pg rp ga gas gai]. cbn in Hgranted, Hroll.
  cbn [getAssetsAsync] in Halbum. subst pg.
  unfold loadPhotos. exec.
  destruct ga as [[album|]|e]; exec.
  - destruct (gas album_query) as [albumAssets|e]; exec.
    + rewrite Halbum. rewrite Hroll. rewrite Hrecent. now eexists.
    + rewrite Hroll. rewrite Hrecent. now eexists.
  - rewrite Hroll. rewrite Hrecent. now eexists.
  - rewrite Hroll. rewrite Hrecent. now eexists.
Qed.

Lemma find_first_part {A} (f : A -> bool) l1 l2 x :
  find f l1 = Some x -> find f (l1 ++ l2) = Some x.
Proof.
  induction l1 as [|y l1 IH]; cbn [find app]; [discriminate|].
  destruct (f y); auto.
Qed.

(** Among photos of pairwise distinct identifiers, the one found under the
    identifier of a photo of the list is that photo. *)
Lemma find_own_id l p :
  NoDup (map Photo.id l) -> In p l ->
  find (fun x => jsstring_eqb (Photo.id x) (Photo.id p)) l = Some p.
Proof.
  induction l as [|y l IH]; cbn [map In find]; intros Hnd Hin; [destruct Hin|].
  inversion Hnd as [|? ? Hy Hnd']; subst.
  destruct (jsstring_eqb (Photo.id y) (Photo.id p)) eqn:Heq.
  - apply jsstring_eqb_eq in Heq. destruct Hin as [->|Hin]; [reflexivity|].
    destruct Hy. rewrite Heq. now apply in_map.
  - destruct Hin as [->|Hin]; [now rewrite jsstring_eqb_refl in Heq|auto].
Qed.

(** A photo of the roll, whose identifiers are pairwise distinct, is in the
    merge whatever the album gave. *)
Lemma uniquePhotos_keeps_recent allPhotos recentPhotos p :
  NoDup (map Photo.id recentPhotos) -> In p recentPhotos ->
  In p (uniquePhotos allPhotos recentPhotos).
Proof.
  intros Hnd Hin. apply uniquePhotos_In. unfold last_with_id.
  rewrite rev_app_distr. apply find_first_part, find_own_id.
  - rewrite map_rev. now apply NoDup_rev.
  - now apply in_rev in Hin.
Qed.

End GalleryFacts.

(** ** Properties of the record store *)

Module StoreProperties.
Import JS Memories Memories.Sample SortFacts JSFacts StoreFacts.

(** Saving a list that is not in order stores it as it came: the text is
    written before the list is sorted, and only the list in memory is
    sorted. *)
Lemma save_persists_the_given_order :
  memories (run [save None [older; newer]] (initial None)) = [newer; older] /\
  persisted (run [save None [older; newer]] (initial None)) = [older; newer] /\
  ~ newest_first (persisted (run [save None [older; newer]] (initial None))).
Proof.
  split; [reflexivity|]. split; [reflexivity|].
  intros H. change (newest_first [older; newer]) in H.
  inversion H as [|? ? _ Hall]; subst.
  inversion Hall as [|? ? Hle _]; subst.
  cbn in Hle. lia.
Qed.

(** C1 (as amended). After every sequence of load, save, append and remove
    operations, and of edits of the form between them, the collection in
    memory is in reverse-chronological order, whatever lists were saved:
    from any screen whose collection is in order, and so from the mounting
    screen. The stored collection is the list handed to the last successful
    save in the order it was given: a save stores its input unsorted, a load
    leaves the storage as it is, and a confirmed remove stores a list that
    is in order. *)
Theorem memory_is_newest_first :
  (forall w ops,
     newest_first (memories w) -> newest_first (memories (run ops w))) /\
  (forall stored ops, newest_first (memories (run ops (initial stored)))) /\
  (forall l w, persisted (after (saveMemories None l) w) = l) /\
  (forall g w, persisted (after (loadMemories g) w) = persisted w) /\
  (forall w ops i,
     newest_first (memories w) ->
     newest_first
       (persisted (after (deleteMemory Delete None i) (run ops w)))) /\
  (forall stored ops i,
     newest_first
       (persisted (after (deleteMemory Delete None i)
                     (run ops (initial stored))))).
Proof.
  assert (Hrun : forall w ops,
             newest_first (memories w) -> newest_first (memories (run ops w))).
  { intros w ops Hw. now apply run_newest_first. }
  assert (Hremove : forall w ops i,
             newest_first (memories w) ->
             newest_first
               (persisted (after (deleteMemory Delete None i) (run ops w)))).
  { intros w ops i Hw. rewrite deleteMemory_persisted.
    now apply filter_newest_first, Hrun. }
  split; [exact Hrun|]. split; [|split; [reflexivity|split; [|split]]].
  - intros stored ops. apply Hrun. constructor.
  - intros g w. unfold persisted. now rewrite loadMemories_storage.
  - exact Hremove.
  - intros stored ops i. apply Hremove. constructor.
Qed.

(** Two memories are composed on the mounting screen, the second under a
    clock that was set back: both are added, the collection in memory is in
    order and the stored one is in the order of the appends. *)
Lemma memory_is_newest_first_after_two_appends :
  newest_first (memories (run two_appends (initial None))) /\
  map LocationMemory.timestamp (memories (run two_appends (initial None)))
  = [1700000000000; 5] /\
  map LocationMemory.timestamp (persisted (run two_appends (initial None)))
  = [5; 1700000000000] /\
  newest_first (memories (run two_appends in_step)) /\
  map LocationMemory.timestamp (memories (run two_appends in_step))
  = [1700000000000; 5; 2; 1].
Proof.
  split; [exact (proj1 (proj2 memory_is_newest_first) None two_appends)|].
  split; [reflexivity|]. split; [reflexivity|].
  split; [|reflexivity].
  apply (proj1 memory_is_newest_first in_step two_appends).
  repeat constructor; cbn; lia.
Defined.

(** C2. When the write of a save is rejected, the save returns normally,
    the whole world, the collection in memory included, is as it was, and the
    failure is logged and shown in an alert. *)
Theorem rejected_save_leaves_memory e l w :
  result (saveMemories (Some e) l) w = Returned tt /\
  after (saveMemories (Some e) l) w = w /\
  memories (after (saveMemories (Some e) l) w) = memories w /\
  trace (saveMemories (Some e) l) w =
    [Call (str "AsyncStorage.setItem");
     console_error (str "Error saving memories:") e;
     Alert_alert (str "Error") (str "Failed to save memory")].
Proof. repeat split. Qed.

(** C3. After a successful save of any list, a load of what was stored, on
    the same screen or on any other screen over that storage, a newly
    mounted one included, publishes the sequence the save published, the
    sorted list; on the screen that saved it changes nothing else. So saving
    what a load published and loading again is a fixed point: the reload
    publishes the sequence the first load published. *)
Theorem save_then_load :
  (forall l w g,
     memories (after (saveMemories None l) w) = sort by_timestamp l /\
     memories (after (loadMemories g) (after (saveMemories None l) w))
     = memories (after (saveMemories None l) w) /\
     after (loadMemories g) (after (saveMemories None l) w)
     = after (saveMemories None l) w) /\
  (forall w g g',
     after (loadMemories g')
       (after (saveMemories None (memories (after (loadMemories g) w)))
          (after (loadMemories g) w))
     = after (saveMemories None (memories (after (loadMemories g) w)))
         (after (loadMemories g) w)) /\
  (forall l w w',
     AsyncStorage w' = AsyncStorage (after (saveMemories None l) w) ->
     memories (after (loadMemories None) w')
     = memories (after (saveMemories None l) w)) /\
  (forall l w w',
     AsyncStorage w = Some (Serialized l) ->
     AsyncStorage w'
     = AsyncStorage
         (after (saveMemories None (memories (after (loadMemories None) w)))
            (after (loadMemories None) w)) ->
     memories (after (loadMemories None) w')
     = memories (after (loadMemories None) w) /\
     memories (after (loadMemories None) w) = sort by_timestamp l).
Proof.
  split; [|split; [|split]].
  - intros l w g. rewrite load_after_save. repeat split.
  - intros w g g'. apply load_after_save.
  - intros l w w' Hstored.
    rewrite loadMemories_memories, Hstored. reflexivity.
  - intros l w w' Hw Hstored.
    rewrite (loadMemories_memories None w'), Hstored.
    rewrite (loadMemories_memories None w), Hw.
    cbn. split; [apply (sort_idempotent _ _ by_timestamp_key)|reflexivity].
Qed.

(** A screen that mounts over what a save stored, holding nothing yet,
    loads the sequence the save published. *)
Lemma save_then_load_on_a_new_screen :
  memories (after (saveMemories None [older; newer]) (initial None))
  = [newer; older] /\
  memories
    (after (loadMemories None) (initial (Some (Serialized [older; newer]))))
  = [newer; older].
Proof.
  split; [reflexivity|].
  exact (proj1 (proj2 (proj2 save_then_load)) [older; newer] (initial None)
           (initial (Some (Serialized [older; newer]))) eq_refl).
Defined.

(** C5. A load returns normally on every storage content and every world.
    When the stored text does not read as an array, or the read is rejected,
    the world is left as it was, so the screen keeps the collection it had,
    the empty one on a screen that just mounted; the error is logged and no
    alert is shown. *)
Theorem load_fails_soft g w :
  result (loadMemories g) w = Returned tt /\
  (forall s, AsyncStorage w = Some s -> (forall l, s <> Serialized l) ->
     after (loadMemories g) w = w) /\
  (forall e, after (loadMemories (Some e)) w = w) /\
  (forall s, (forall l, s <> Serialized l) ->
     memories (after (loadMemories g) (initial (Some s))) = []) /\
  (forall ev, In ev (trace (loadMemories g) w) ->
     ev = Call (str "AsyncStorage.getItem") \/
     exists e, ev = console_error (str "Error loading memories:") e) /\
  (AsyncStorage w = Some NotJson ->
     trace (loadMemories None) w =
       [Call (str "AsyncStorage.getItem");
        console_error (str "Error loading memories:") SyntaxError]) /\
  (AsyncStorage w = Some OtherJson ->
     trace (loadMemories None) w =
       [Call (str "AsyncStorage.getItem");
        console_error (str "Error loading memories:") TypeError]).
Proof.
  split; [apply loadMemories_returns|].
  split; [|split; [reflexivity|split; [|split; [|split]]]].
  - intros s Hs Hno.
    destruct g, w as [ms mv ld ti de em ph st]; cbn in Hs; subst st;
      destruct s; try reflexivity; now destruct (Hno l).
  - intros s Hno. destruct g, s; try reflexivity; now destruct (Hno l).
  - intros ev.
    destruct g, w as [ms mv ld ti de em ph [[]|]]; exec; cbn [In];
      intuition eauto.
  - destruct w as [ms mv ld ti de em ph st]; cbn. now intros ->.
  - destruct w as [ms mv ld ti de em ph st]; cbn. now intros ->.
Qed.

Lemma load_fails_soft_on_unreadable :
  after (loadMemories None) unreadable = unreadable /\
  trace (loadMemories None) unreadable =
    [Call (str "AsyncStorage.getItem");
     console_error (str "Error loading memories:") SyntaxError].
Proof.
  split.
  - refine (proj1 (proj2 (load_fails_soft None unreadable)) NotJson eq_refl _).
    intros l H; discriminate H.
  - exact (proj1 (proj2 (proj2 (proj2 (proj2 (proj2
             (load_fails_soft None unreadable)))))) eq_refl).
Defined.

(** C6. With a title that is empty once trimmed, [createMemory] shows the
    alert that asks for a title and does nothing else: no call to the
    location provider or to the storage, the collection and the stored text
    unchanged, the composer still open on the same form. A second attempt
    finds the same world and leaves it the same. *)
Theorem blank_title_is_rejected d w :
  trim (title w) = [] ->
  createMemory d w =
    (Returned tt, w,
     [Alert_alert (str "Required")
        (str "Please enter a title for your memory")]) /\
  List.length (memories (after (createMemory d) w))
  = List.length (memories w) /\
  AsyncStorage (after (createMemory d) w) = AsyncStorage w /\
  modalVisible (after (createMemory d) w) = modalVisible w /\
  forall d', after (createMemory d') (after (createMemory d) w)
             = after (createMemory d) w.
Proof.
  intros Hblank.
  pose proof (fun d0 => createMemory_blank d0 w Hblank) as Hrun.
  split; [apply Hrun|].
  unfold after. rewrite Hrun. cbn [fst snd]. repeat split.
  intros d'. now rewrite Hrun.
Qed.

Lemma blank_title_is_rejected_on_blank_form :
  trim (title blank_form) = [] /\
  after (createMemory a_device) blank_form = blank_form /\
  trace (createMemory a_device) blank_form =
    [Alert_alert (str "Required") (str "Please enter a title for your memory")].
Proof.
  split; [reflexivity|].
  split.
  - exact (f_equal (fun r => snd (fst r))
             (proj1 (blank_title_is_rejected a_device blank_form eq_refl))).
  - exact (f_equal snd
             (proj1 (blank_title_is_rejected a_device blank_form eq_refl))).
Defined.

(** C7. The sort by descending timestamp is stable: the records of any one
    timestamp come out in the order they went in. So they keep that order
    in the collection a save publishes, and in the collection any number of
    loads of a stored list publish. *)
Theorem equal_timestamps_keep_order t l :
  with_timestamp t (sort by_timestamp l) = with_timestamp t l /\
  (forall w, with_timestamp t (memories (after (saveMemories None l) w))
             = with_timestamp t l) /\
  (forall w n, AsyncStorage w = Some (Serialized l) ->
     with_timestamp t (memories (run (repeat (load None) (S n)) w))
     = with_timestamp t l).
Proof.
  pose proof (sort_stable _ _ by_timestamp_key t l) as Hstable.
  split; [exact Hstable|]. split.
  - intros w. exact Hstable.
  - intros w n Hw. rewrite (repeated_loads l n w Hw). exact Hstable.
Qed.

Lemma equal_timestamps_keep_order_on_tied :
  with_timestamp 7
    (memories (run (repeat (load None) 3) (initial (Some (Serialized tied)))))
  = [a_memory "1" 7; a_memory "3" 7].
Proof.
  exact (proj2 (proj2 (equal_timestamps_keep_order 7 tied))
           (initial (Some (Serialized tied))) 2%nat eq_refl).
Defined.

(** After a read that was rejected the screen holds no record while the
    storage holds one; removing an identifier that is in neither then
    overwrites the stored record with the empty collection. *)
Lemma remove_absent_after_failed_read :
  ~ In (str "2") (map LocationMemory.id (memories after_failed_read)) /\
  ~ In (str "2") (map LocationMemory.id (persisted after_failed_read)) /\
  result (deleteMemory Delete None (str "2")) after_failed_read = Returned tt /\
  persisted after_failed_read = [older] /\
  persisted (after (deleteMemory Delete None (str "2")) after_failed_read) = [].
Proof.
  split; [intros []|]. split; [|repeat split].
  cbn. intros [H|[]]. discriminate H.
Qed.

(** C8 (as amended). In a world whose collection in memory is in
    reverse-chronological order and whose storage holds the text of that
    same collection, removing an identifier that no record carries changes
    nothing, in memory or in the storage, whichever button is pressed and
    whether or not the write goes through, and returns normally; when the
    write goes through nothing but the confirmation dialog is shown. *)
Theorem remove_absent_is_noop b s i w :
  newest_first (memories w) ->
  AsyncStorage w = Some (Serialized (memories w)) ->
  ~ In i (map LocationMemory.id (memories w)) ->
  result (deleteMemory b s i) w = Returned tt /\
  after (deleteMemory b s i) w = w /\
  trace (deleteMemory Delete None i) w =
    [Alert_alert (str "Delete Memory")
       (str "Are you sure you want to delete this memory?");
     Call (str "AsyncStorage.setItem")].
Proof.
  intros Hsorted Hsync Habsent.
  destruct w as [ms mv ld ti de em ph st]. cbn in Hsorted, Hsync, Habsent.
  subst st. split; [destruct b, s; reflexivity|]. split; [|reflexivity].
  destruct b, s; try reflexivity.
  exec. rewrite (filter_absent_id i ms Habsent).
  now rewrite (sort_of_newest_first ms Hsorted).
Qed.

Lemma remove_absent_is_noop_in_step :
  after (deleteMemory Delete None (str "3")) in_step = in_step.
Proof.
  refine (proj1 (proj2
            (remove_absent_is_noop Delete None (str "3") in_step _ eq_refl _))).
  - repeat constructor; cbn; lia.
  - cbn. intros [H|[H|[]]]; discriminate H.
Defined.

(** C10. A record that [createMemory] adds to the collection has an
    [address] that is present, a string; it is the empty string when the
    geocoder fails, finds no place, or finds a place without street, city
    and region. *)
Theorem created_address_is_a_string d w m :
  In m (memories (after (createMemory d) w)) ->
  ~ In m (memories w) ->
  exists a,
    Loc.address (LocationMemory.location m) = Some a /\
    (forall lat lon,
       getCurrentPositionAsync d = Returned (lat, lon) ->
       no_components (reverseGeocodeAsync d lat lon) -> a = []).
Proof.
  intros Hin Hnew.
  destruct (createMemory_appends d w) as [Hsame|(lat & lon & Hpos & Hmem)].
  - rewrite Hsame in Hin. contradiction.
  - rewrite Hmem in Hin.
    apply (Permutation_in _ (sort_Permutation by_timestamp _)) in Hin.
    destruct Hin as [<-|Hin]; [|contradiction].
    eexists. split; [reflexivity|].
    intros lat' lon' Hpos' Hnone. rewrite Hpos in Hpos'.
    injection Hpos' as <- <-.
    unfold no_components in Hnone. unfold address_of.
    destruct (reverseGeocodeAsync d lat lon) as [[|addr ?]|]; try reflexivity.
    now rewrite Hnone.
Qed.

Lemma created_address_is_a_string_for_coffee :
  memories (after (createMemory a_device) coffee_form) = [coffee] /\
  exists a, Loc.address (LocationMemory.location coffee) = Some a /\ a = [].
Proof.
  split; [vm_compute; reflexivity|].
  destruct (created_address_is_a_string a_device coffee_form coffee)
    as (a & Ha & Hempty).
  - vm_compute. left. reflexivity.
  - intros [].
  - exists a. split; [exact Ha|].
    exact (Hempty 40%Q (-73)%Q eq_refl I).
Defined.

End StoreProperties.

(** ** Properties of the gallery *)

Module GalleryProperties.
Import JS Gallery Gallery.Sample SortFacts JSFacts GalleryFacts.

(** C4. For album photos [a] (time 5) and [b] (time 3) and roll photos [b]
    (time 3) and [c] (time 8), whatever their other fields, the merge is
    [c], [a], then the [b] of the roll, with one entry for ["b"]; a run of
    [loadPhotos] on a device that answers the two queries with these assets
    publishes them in that order. In general the merged photos carry
    pairwise distinct identifiers, namely those of the two results; each is
    the last photo of its identifier in the album result followed by the
    roll result; and they come newest first. *)
Theorem gallery_merge :
  (forall ua ub ub' uc fa fb fb' fc la lb lb' lc,
     uniquePhotos
       [Photo.mk (str "a") ua 5 fa la; Photo.mk (str "b") ub 3 fb lb]
       [Photo.mk (str "b") ub' 3 fb' lb'; Photo.mk (str "c") uc 8 fc lc]
     = [Photo.mk (str "c") uc 8 fc lc; Photo.mk (str "a") ua 5 fa la;
        Photo.mk (str "b") ub' 3 fb' lb'] /\
     List.length
       (filter (fun p => jsstring_eqb (Photo.id p) (str "b"))
          (uniquePhotos
             [Photo.mk (str "a") ua 5 fa la; Photo.mk (str "b") ub 3 fb lb]
             [Photo.mk (str "b") ub' 3 fb' lb'; Photo.mk (str "c") uc 8 fc lc]))
     = 1%nat) /\
  (forall r answers w ua ub uc fa fb fc,
     map (fun p => (Photo.id p, Photo.creationTime p))
       (photos (after (loadPhotos
                         (a_device r answers (Asset.mk (str "a") ua 5 fa)
                            (Asset.mk (str "b") ub 3 fb)
                            (Asset.mk (str "c") uc 8 fc))) w))
     = [(str "c", 8); (str "a", 5); (str "b", 3)]) /\
  (forall album roll,
     NoDup (map Photo.id (uniquePhotos album roll)) /\
     (forall k, In k (map Photo.id (uniquePhotos album roll)) <->
                In k (map Photo.id (album ++ roll))) /\
     (forall p, In p (uniquePhotos album roll) <->
                last_with_id (Photo.id p) (album ++ roll) = Some p) /\
     newest_first (uniquePhotos album roll)).
Proof.
  split; [|split].
  - intros. split; reflexivity.
  - intros r answers w ua ub uc fa fb fc.
    cbv -[Z.sub Z.leb].
    repeat match goal with
           | |- context [match answers ?q ?i ?x with _ => _ end] =>
               destruct (answers q i x)
           end; reflexivity.
  - intros album roll.
    split; [apply uniquePhotos_NoDup|].
    split; [apply uniquePhotos_ids|].
    split; [apply uniquePhotos_In|apply uniquePhotos_newest_first].
Qed.

(** C9. The photos of a batch come back whatever the device answers for
    each asset: one photo per asset, in the order of the batch, with the
    identifier, creation time and file name of its asset. Where resolving
    an asset fails its photo carries the asset's own URI; the other photos
    carry what was resolved for them. The batch does not reject and leaves
    the world as it was. So every asset of the roll, whose identifiers are
    pairwise distinct, has its photo among those [loadPhotos] publishes, with
    the asset's own URI where resolving it failed. *)
Theorem one_failure_does_not_abort :
  (forall d q assets w,
     exists photos,
       result (getPhotoInfos d q assets) w = Returned photos /\
       after (getPhotoInfos d q assets) w = w /\
       map Photo.id photos = map Asset.id assets /\
       forall i asset, nth_error assets i = Some asset ->
         exists p, nth_error photos i = Some p /\
           Photo.id p = Asset.id asset /\
           Photo.creationTime p = Asset.creationTime asset /\
           Photo.filename p = Asset.filename asset /\
           (forall e, getAssetInfoAsync d q i asset = Thrown e ->
              Photo.uri p = Asset.uri asset /\ Photo.localUri p = None) /\
           (forall info, getAssetInfoAsync d q i asset = Returned info ->
              Photo.uri p
              = or_else (AssetInfo.localUri info) (Asset.uri asset))) /\
  (forall d w assets,
     permission_granted d = true ->
     getAssetsAsync d roll_query = Returned assets ->
     NoDup (map Asset.id assets) ->
     forall i asset, nth_error assets i = Some asset ->
       exists p, In p (photos (after (loadPhotos d) w)) /\
         Photo.id p = Asset.id asset /\
         (forall e, getAssetInfoAsync d roll_query i asset = Thrown e ->
            Photo.uri p = Asset.uri asset)).
Proof.
  split.
  - intros d q assets w.
    destruct (getPhotoInfos_returns d q assets)
      as (photos & t & Hrun & Hids & Hnth).
    exists photos. unfold result, after. rewrite Hrun. repeat split; auto.
  - intros d w assets Hgranted Hroll Hnd i asset Hi.
    destruct (getPhotoInfos_returns d roll_query assets)
      as (recentPhotos & t & Hrun & Hids & Hnth).
    destruct
      (loadPhotos_publishes d w assets recentPhotos t Hgranted Hroll Hrun)
      as (allPhotos & ->).
    destruct (Hnth i asset Hi) as (p & Hp & Hid & _ & _ & Hfail & _).
    exists p. split; [|split; [exact Hid|]].
    + apply uniquePhotos_keeps_recent; [now rewrite Hids|].
      now apply nth_error_In in Hp.
    + intros e He. now destruct (Hfail e He).
Qed.

Lemma one_failure_does_not_abort_on_flaky_device :
  (exists photos,
     result (getPhotoInfos flaky_device album_query
               [first_asset; second_asset]) initial
     = Returned photos /\
     map Photo.id photos = [str "a"; str "b"] /\
     exists p, nth_error photos 1 = Some p /\ Photo.uri p = str "ph://b") /\
  (exists p, In p (photos (after (loadPhotos flaky_device) initial)) /\
     Photo.id p = str "c" /\ Photo.uri p = str "ph://c").
Proof.
  split.
  - destruct (proj1 one_failure_does_not_abort flaky_device album_query
                [first_asset; second_asset] initial)
      as (photos & Hres & _ & Hids & Hnth).
    exists photos. split; [exact Hres|]. split; [exact Hids|].
    destruct (Hnth 1%nat second_asset eq_refl)
      as (p & Hp & _ & _ & _ & Hfail & _).
    exists p. split; [exact Hp|].
    exact (proj1 (Hfail no_info eq_refl)).
  - destruct (proj2 one_failure_does_not_abort flaky_device initial
                [second_asset; third_asset] eq_refl eq_refl)
      with (i := 1%nat) (asset := third_asset)
      as (p & Hin & Hid & Hfail).
    + repeat constructor; cbn; intuition discriminate.
    + reflexivity.
    + exists p. split; [exact Hin|]. split; [exact Hid|].
      exact (Hfail no_info eq_refl).
Defined.

End GalleryProperties.

(** ** More on the memories screen *)

Module StoreExtras.
Import JS Memories Memories.Sample SortFacts JSFacts StoreFacts Observations.

Ltac run_step :=
  cbv beta iota zeta delta
    [after result trace fst snd bind try_catch try_finally emit gets modify
     await ret throw perform loadMemories saveMemories createMemory
     deleteMemory getCurrentLocation pickImage takePhoto assets_0
     AsyncStorage_getItem AsyncStorage_setItem
     JSON_parse JSON_stringify parsed_sort blob_truthy setMemories setLoading
     setTitle setDescription setSelectedEmoji setCapturedPhoto setModalVisible
     is_granted app memories modalVisible loading title description
     selectedEmoji capturedPhoto AsyncStorage persisted newMemory
     requestForegroundPermissionsAsync getCurrentPositionAsync
     reverseGeocodeAsync Date_now setItem requestPermissionsAsync launchAsync
     canceled assets alerts calls];
  cbn [negb].

Ltac run_all := run_step; repeat (progress run_step).

Lemma truthy_nonempty (s : jsstring) : s <> [] -> truthy s = true.
Proof. destruct s; [now intros []|reflexivity]. Qed.

Lemma newest_first_cons m l :
  none_newer (LocationMemory.timestamp m) l -> newest_first l ->
  newest_first (m :: l).
Proof. intros Hnone Hl. constructor; assumption. Qed.

(** The successful run, spelled out. *)
Lemma createMemory_saved d w lat lon :
  trim (title w) <> [] ->
  requestForegroundPermissionsAsync d = Returned granted ->
  getCurrentPositionAsync d = Returned (lat, lon) ->
  setItem d = None ->
  result (createMemory d) w = Returned tt /\
  after (createMemory d) w =
    mkWorld
      (sort by_timestamp
         (newMemory d w
            (Loc.mk lat lon (Some (address_of (reverseGeocodeAsync d lat lon))))
          :: memories w))
      false false [] [] pin None
      (Some (Serialized
         (newMemory d w
            (Loc.mk lat lon (Some (address_of (reverseGeocodeAsync d lat lon))))
          :: memories w))) /\
  alerts (trace (createMemory d) w)
  = [(str "Success!", str "Memory saved successfully!")].
Proof.
  intros Htitle Hperm Hpos Hset. apply truthy_nonempty in Htitle.
  destruct d as [perm pos rg now si], w as [ms mv ld ti de em ph st].
  cbn [title] in Htitle. cbn in Hperm, Hpos, Hset. subst perm pos si.
  run_all. rewrite Htitle. run_all.
  destruct (rg lat lon) as [[|a ?]|]; run_all; repeat split.
Qed.

(** X1. With a title that is not blank, the permission granted, a position
    fixed and the write accepted, [createMemory] puts the new record in front
    of a collection in order whose records are not newer than the clock,
    stores that same list, clears the form, closes the composer and shows
    the success alert and no other. *)
Theorem created_record_comes_first d w lat lon :
  trim (title w) <> [] ->
  requestForegroundPermissionsAsync d = Returned granted ->
  getCurrentPositionAsync d = Returned (lat, lon) ->
  setItem d = None ->
  newest_first (memories w) ->
  none_newer (snd (Date_now d)) (memories w) ->
  result (createMemory d) w = Returned tt /\
  after (createMemory d) w =
    mkWorld
      (newMemory d w
         (Loc.mk lat lon (Some (address_of (reverseGeocodeAsync d lat lon))))
       :: memories w)
      false false [] [] pin None
      (Some (Serialized
         (newMemory d w
            (Loc.mk lat lon (Some (address_of (reverseGeocodeAsync d lat lon))))
          :: memories w))) /\
  alerts (trace (createMemory d) w)
  = [(str "Success!", str "Memory saved successfully!")].
Proof.
  intros Htitle Hperm Hpos Hset Hsorted Hnone.
  destruct (createMemory_saved d w lat lon Htitle Hperm Hpos Hset)
    as (Hres & Hafter & Halerts).
  split; [exact Hres|]. split; [|exact Halerts].
  rewrite Hafter. rewrite sort_of_newest_first; [reflexivity|].
  now apply newest_first_cons.
Qed.

Lemma created_record_comes_first_for_tea :
  after (createMemory a_geocoding_device) tea_form =
    mkWorld
      (LocationMemory.mk (str "1700000000000") (str "Tea") (str "hot") pin
         (Some (str "file:///picked.jpg"))
         (Loc.mk 40 (-73) (Some (str "Main St, Waltham"))) 1700000000000
       :: [newer; older])
      false false [] [] pin None
      (Some (Serialized
         (LocationMemory.mk (str "1700000000000") (str "Tea") (str "hot") pin
            (Some (str "file:///picked.jpg"))
            (Loc.mk 40 (-73) (Some (str "Main St, Waltham"))) 1700000000000
          :: [newer; older]))).
Proof.
  refine (proj1 (proj2
    (created_record_comes_first a_geocoding_device tea_form 40%Q (-73)%Q
       _ eq_refl eq_refl eq_refl _ _))).
  - vm_compute. discriminate.
  - repeat constructor; cbn; lia.
  - repeat constructor; cbn; lia.
Defined.

(** Every run returns; it leaves memory and storage alone or is the
    successful run. *)
Lemma createMemory_store d w :
  result (createMemory d) w = Returned tt /\
  (memories (after (createMemory d) w) = memories w /\
   AsyncStorage (after (createMemory d) w) = AsyncStorage w \/
   trim (title w) <> [] /\
   requestForegroundPermissionsAsync d = Returned granted /\
   setItem d = None /\
   exists lat lon, getCurrentPositionAsync d = Returned (lat, lon)).
Proof.
  destruct d as [perm pos rg now si], w as [ms mv ld ti de em ph st].
  run_all.
  destruct (trim ti) as [|c ti'] eqn:Hti; cbn [truthy]; run_all;
    [split; [reflexivity|now left]|].
  destruct perm as [[]|]; run_all; try (split; [reflexivity|now left]).
  destruct pos as [[lat lon]|]; run_all; try (split; [reflexivity|now left]).
  destruct si as [e|].
  - destruct (rg lat lon) as [[|a ?]|]; run_all; split; try reflexivity;
      now left.
  - split.
    + destruct (rg lat lon) as [[|a ?]|]; reflexivity.
    + right. repeat split; try discriminate. now exists lat, lon.
Qed.

(** X2. With a title that is not blank, when the permission is not granted
    or the position cannot be fixed, [createMemory] returns with the
    collection, the storage, the form and the composer as they were and the
    loading flag down, shows one alert and never calls the storage. *)
Theorem location_unavailable_keeps_form d w :
  trim (title w) <> [] ->
  (requestForegroundPermissionsAsync d <> Returned granted \/
   exists e, getCurrentPositionAsync d = Thrown e) ->
  result (createMemory d) w = Returned tt /\
  after (createMemory d) w =
    mkWorld (memories w) (modalVisible w) false (title w) (description w)
      (selectedEmoji w) (capturedPhoto w) (AsyncStorage w) /\
  List.length (alerts (trace (createMemory d) w)) = 1%nat /\
  ~ In (str "AsyncStorage.setItem") (calls (trace (createMemory d) w)).
Proof.
  intros Htitle Hno. apply truthy_nonempty in Htitle.
  destruct d as [perm pos rg now si], w as [ms mv ld ti de em ph st].
  cbn [title] in Htitle.
  cbn [requestForegroundPermissionsAsync getCurrentPositionAsync] in Hno.
  run_all. rewrite Htitle. run_all.
  destruct perm as [[]|]; run_all.
  - destruct Hno as [Hno|[e ->]]; [now destruct Hno|].
    run_all. repeat split. cbn. intros [H|[H|H]];
      (discriminate H || destruct H).
  - repeat split. cbn. intros [H|H]; (discriminate H || destruct H).
  - repeat split. cbn. intros [H|H]; (discriminate H || destruct H).
  - repeat split. cbn. intros [H|H]; (discriminate H || destruct H).
Qed.

Lemma location_unavailable_keeps_form_when_refused :
  after (createMemory a_refusing_device) tea_form = tea_form /\
  alerts (trace (createMemory a_refusing_device) tea_form)
  = [(str "Permission needed",
      str ("Location permission is required " ++
           "to save memories with location."))].
Proof.
  split; [|reflexivity].
  refine (proj1 (proj2
    (location_unavailable_keeps_form a_refusing_device tea_form _ _))).
  - vm_compute. discriminate.
  - left. discriminate.
Defined.

(** X3. When the storage rejects the write, [createMemory] adds no record
    and leaves the storage alone; it still clears the form, closes the
    composer and shows the success alert after the alert of the failed
    save. *)
Theorem rejected_write_still_clears_form d w lat lon e :
  trim (title w) <> [] ->
  requestForegroundPermissionsAsync d = Returned granted ->
  getCurrentPositionAsync d = Returned (lat, lon) ->
  setItem d = Some e ->
  result (createMemory d) w = Returned tt /\
  after (createMemory d) w =
    mkWorld (memories w) false false [] [] pin None (AsyncStorage w) /\
  alerts (trace (createMemory d) w)
  = [(str "Error", str "Failed to save memory");
     (str "Success!", str "Memory saved successfully!")].
Proof.
  intros Htitle Hperm Hpos Hset. apply truthy_nonempty in Htitle.
  destruct d as [perm pos rg now si], w as [ms mv ld ti de em ph st].
  cbn [title] in Htitle. cbn in Hperm, Hpos, Hset. subst perm pos si.
  run_all. rewrite Htitle. run_all.
  destruct (rg lat lon) as [[|a ?]|]; run_all; repeat split.
Qed.

Lemma rejected_write_still_clears_form_when_full :
  memories (after (createMemory a_full_device) tea_form) = [newer; older] /\
  title (after (createMemory a_full_device) tea_form) = [] /\
  capturedPhoto (after (createMemory a_full_device) tea_form) = None /\
  modalVisible (after (createMemory a_full_device) tea_form) = false.
Proof.
  rewrite (proj1 (proj2
    (rejected_write_still_clears_form a_full_device tea_form 40%Q (-73)%Q
       (Rejected (str "disk full"))
       ltac:(vm_compute; discriminate) eq_refl eq_refl eq_refl))).
  repeat split.
Defined.

(** X4. [createMemory] returns normally whatever the device answers; with
    a title that is not blank it leaves the loading flag down; it drops no
    record of the collection and adds at most one. *)
Theorem createMemory_returns_and_releases d w :
  result (createMemory d) w = Returned tt /\
  (trim (title w) <> [] -> loading (after (createMemory d) w) = false) /\
  (forall m, In m (memories w) -> In m (memories (after (createMemory d) w))) /\
  (List.length (memories (after (createMemory d) w))
   <= S (List.length (memories w)))%nat.
Proof.
  split; [apply createMemory_store|]. split; [|split].
  - intros Htitle.
    destruct (createMemory_store d w)
      as [_ [[_ _]|(_ & Hperm & Hset & lat & lon & Hpos)]].
    + apply truthy_nonempty in Htitle.
      destruct d as [perm pos rg now si], w as [ms mv ld ti de em ph st].
      cbn [title] in Htitle. run_all. rewrite Htitle. run_all.
      destruct perm as [[]|]; run_all; try reflexivity.
      destruct pos as [[lat lon]|]; run_all; try reflexivity.
      destruct si; destruct (rg lat lon) as [[|a ?]|]; reflexivity.
    + now rewrite (proj1 (proj2
        (createMemory_saved d w lat lon Htitle Hperm Hpos Hset))).
  - intros m Hin.
    destruct (createMemory_appends d w) as [->|(lat & lon & _ & ->)];
      [exact Hin|].
    apply (Permutation_in _
             (Permutation_sym (sort_Permutation by_timestamp _))).
    now right.
  - destruct (createMemory_appends d w) as [->|(lat & lon & _ & ->)];
      [lia|].
    rewrite (Permutation_length (sort_Permutation by_timestamp _)).
    cbn [List.length]. lia.
Qed.

Lemma createMemory_returns_and_releases_for_tea :
  loading (after (createMemory a_geocoding_device) tea_form) = false.
Proof.
  refine (proj1 (proj2
    (createMemory_returns_and_releases a_geocoding_device tea_form)) _).
  vm_compute. discriminate.
Defined.

(** What [trim] leaves starts and ends with a code unit that is no white
    space. *)
Lemma trimStart_head s c s' :
  trimStart s = c :: s' -> is_white_space c = false.
Proof.
  induction s as [|a s IH]; cbn [trimStart]; [discriminate|].
  destruct (is_white_space a) eqn:Ha; [exact IH|].
  now intros [= <- _].
Qed.

Lemma trimStart_suffix s : exists p, s = p ++ trimStart s.
Proof.
  induction s as [|a s [p IH]]; cbn [trimStart]; [now exists []|].
  destruct (is_white_space a); [|now exists []].
  exists (a :: p). cbn [app]. now rewrite <- IH.
Qed.

Lemma trim_edges s :
  (forall c, hd_error (trim s) = Some c -> is_white_space c = false) /\
  (forall c, hd_error (rev (trim s)) = Some c -> is_white_space c = false).
Proof.
  unfold trim, trimEnd. rewrite rev_involutive. split; intros c Hc.
  - destruct (trimStart_suffix (rev (trimStart s))) as [p Hp].
    apply (f_equal (@rev N)) in Hp. rewrite rev_involutive, rev_app_distr in Hp.
    destruct (rev (trimStart (rev (trimStart s)))) as [|c' t]; [discriminate|].
    injection Hc as ->. cbn [app] in Hp.
    exact (trimStart_head _ _ _ Hp).
  - destruct (trimStart (rev (trimStart s))) as [|c' t] eqn:Ht; [discriminate|].
    injection Hc as ->. exact (trimStart_head _ _ _ Ht).
Qed.

(** A record that is new in the collection is the one of the successful
    run. *)
Lemma created_record d w m :
  In m (memories (after (createMemory d) w)) ->
  ~ In m (memories w) ->
  trim (title w) <> [] /\
  exists lat lon,
    getCurrentPositionAsync d = Returned (lat, lon) /\
    m = newMemory d w
          (Loc.mk lat lon (Some (address_of (reverseGeocodeAsync d lat lon)))).
Proof.
  intros Hin Hnew.
  destruct (createMemory_store d w)
    as [_ [[Hsame _]|(Htitle & Hperm & Hset & lat & lon & Hpos)]].
  - rewrite Hsame in Hin. contradiction.
  - split; [exact Htitle|]. exists lat, lon. split; [exact Hpos|].
    rewrite (proj1 (proj2
      (createMemory_saved d w lat lon Htitle Hperm Hpos Hset))) in Hin.
    cbn [memories] in Hin.
    apply (Permutation_in _ (sort_Permutation by_timestamp _)) in Hin.
    destruct Hin as [<-|Hin]; [reflexivity|contradiction].
Qed.

(** X5. A record [createMemory] adds carries the trimmed title of the
    form, which is not empty and neither starts nor ends with white space,
    the trimmed description, the emoji and the photo of the form, the first
    reading of the clock as its identifier and the second as its
    timestamp. *)
Theorem created_record_is_trimmed d w m :
  In m (memories (after (createMemory d) w)) ->
  ~ In m (memories w) ->
  LocationMemory.title m = trim (title w) /\
  LocationMemory.title m <> [] /\
  (forall c, hd_error (LocationMemory.title m) = Some c ->
             is_white_space c = false) /\
  (forall c, hd_error (rev (LocationMemory.title m)) = Some c ->
             is_white_space c = false) /\
  LocationMemory.description m = trim (description w) /\
  LocationMemory.emoji m = selectedEmoji w /\
  LocationMemory.photoUri m = or_undefined (capturedPhoto w) /\
  LocationMemory.id m = toString (fst (Date_now d)) /\
  LocationMemory.timestamp m = snd (Date_now d).
Proof.
  intros Hin Hnew.
  destruct (created_record d w m Hin Hnew) as (Htitle & lat & lon & _ & ->).
  cbn [newMemory LocationMemory.title LocationMemory.description
       LocationMemory.emoji LocationMemory.photoUri LocationMemory.id
       LocationMemory.timestamp].
  destruct (trim_edges (title w)) as [Hhead Hlast].
  repeat split; auto.
Qed.

Lemma created_record_is_trimmed_for_tea :
  LocationMemory.title
    (newMemory a_geocoding_device tea_form
       (Loc.mk 40 (-73) (Some (str "Main St, Waltham"))))
  = str "Tea".
Proof.
  rewrite (proj1
    (created_record_is_trimmed a_geocoding_device tea_form
       (newMemory a_geocoding_device tea_form
          (Loc.mk 40 (-73) (Some (str "Main St, Waltham"))))
       ltac:(vm_compute; left; reflexivity)
       ltac:(cbn; intros [H|[H|[]]]; discriminate H))).
  reflexivity.
Defined.

Lemma filter_drops_id i l :
  ~ In i (map LocationMemory.id
            (filter (fun m => negb (jsstring_eqb (LocationMemory.id m) i)) l)).
Proof.
  intros Hin. apply in_map_iff in Hin as [m [Hid Hm]].
  apply filter_In in Hm as [_ Hm].
  rewrite Hid, jsstring_eqb_refl in Hm. discriminate Hm.
Qed.

Lemma filter_keeps_others i l m :
  LocationMemory.id m <> i -> In m l ->
  In m (filter (fun m => negb (jsstring_eqb (LocationMemory.id m) i)) l).
Proof.
  intros Hid Hin. apply filter_In. split; [exact Hin|].
  destruct (jsstring_eqb (LocationMemory.id m) i) eqn:Heq; [|reflexivity].
  now apply jsstring_eqb_eq in Heq.
Qed.

(** X6. After a confirmed delete whose write is accepted no record with the
    identifier is left in memory or in the storage, every other record is
    still in both and none is new; in a collection in order the others keep
    their order and the storage holds the list in memory. A rejected write
    or the Cancel button leaves the world as it was. *)
Theorem confirmed_delete_removes_id i w :
  ~ In i (map LocationMemory.id
            (memories (after (deleteMemory Delete None i) w))) /\
  ~ In i (map LocationMemory.id
            (persisted (after (deleteMemory Delete None i) w))) /\
  (forall m, LocationMemory.id m <> i -> In m (memories w) ->
     In m (memories (after (deleteMemory Delete None i) w)) /\
     In m (persisted (after (deleteMemory Delete None i) w))) /\
  (forall m, In m (memories (after (deleteMemory Delete None i) w)) ->
     In m (memories w)) /\
  (newest_first (memories w) ->
     memories (after (deleteMemory Delete None i) w)
     = filter (fun m => negb (jsstring_eqb (LocationMemory.id m) i))
         (memories w) /\
     persisted (after (deleteMemory Delete None i) w)
     = memories (after (deleteMemory Delete None i) w)) /\
  (forall e, after (deleteMemory Delete (Some e) i) w = w) /\
  (forall s, after (deleteMemory Cancel s i) w = w).
Proof.
  rewrite deleteMemory_memories, deleteMemory_persisted.
  split; [|split; [|split; [|split; [|split; [|split]]]]].
  - intros Hin.
    apply (Permutation_in _
             (Permutation_map _ (sort_Permutation by_timestamp _))) in Hin.
    exact (filter_drops_id i _ Hin).
  - apply filter_drops_id.
  - intros m Hid Hin. split; [|now apply filter_keeps_others].
    apply (Permutation_in _
             (Permutation_sym (sort_Permutation by_timestamp _))).
    now apply filter_keeps_others.
  - intros m Hin.
    apply (Permutation_in _ (sort_Permutation by_timestamp _)) in Hin.
    now apply filter_In in Hin.
  - intros Hsorted.
    now rewrite (sort_of_newest_first _ (filter_newest_first _ _ Hsorted)).
  - reflexivity.
  - intros s. destruct s; reflexivity.
Qed.

Lemma confirmed_delete_removes_id_in_step :
  memories (after (deleteMemory Delete None (str "1")) in_step) = [newer] /\
  persisted (after (deleteMemory Delete None (str "1")) in_step) = [newer].
Proof.
  destruct (proj1 (proj2 (proj2 (proj2 (proj2
    (confirmed_delete_removes_id (str "1") in_step)))))
    ltac:(repeat constructor; cbn; lia)) as [Hmem Hper].
  rewrite Hper, Hmem. split; reflexivity.
Defined.

(** One operation that hands [saveMemories] a list in order keeps memory
    and storage in step. *)
Lemma perform_in_step o w :
  in_step_with_storage w -> keeps_order o w ->
  in_step_with_storage (after (perform o) w).
Proof.
  intros [Hsorted Hstore] Hkeeps.
  pose proof (edits_keep_store o w) as Hedit.
  destruct o as [g|s l|d|b s i|text|text|emoji|p|p| |visible];
    try (unfold in_step_with_storage;
         rewrite (proj1 Hedit), (proj2 Hedit); now split);
    clear Hedit; cbn [perform keeps_order] in *.
  - split.
    + rewrite loadMemories_memories.
      destruct g, (AsyncStorage w) as [[]|]; auto using sort_newest_first.
    + rewrite loadMemories_memories, loadMemories_storage.
      destruct Hstore as [Hs|[Hs Hm]]; rewrite Hs.
      * left. destruct g; [reflexivity|].
        now rewrite (sort_of_newest_first _ Hsorted).
      * right. destruct g; now split.
  - destruct s as [e|].
    + unfold after. rewrite saveMemories_rejected. now split.
    + unfold after. rewrite saveMemories_resolved. cbn [fst snd].
      rewrite (sort_of_newest_first _ Hkeeps).
      split; [exact Hkeeps|now left].
  - destruct (createMemory_store d w)
      as [_ [[Hmem Hsto]|(Htitle & Hperm & Hset & lat & lon & Hpos)]].
    + unfold in_step_with_storage. rewrite Hmem, Hsto. now split.
    + rewrite (proj1 (proj2
        (createMemory_saved d w lat lon Htitle Hperm Hpos Hset))).
      assert (Hnew : newest_first
                (newMemory d w
                   (Loc.mk lat lon
                      (Some (address_of (reverseGeocodeAsync d lat lon))))
                 :: memories w))
        by (apply newest_first_cons; assumption).
      rewrite (sort_of_newest_first _ Hnew).
      split; [exact Hnew|now left].
  - destruct b; [now destruct s; split|].
    destruct s as [e|]; [now split|].
    split.
    + rewrite deleteMemory_memories. apply sort_newest_first.
    + left. rewrite deleteMemory_memories.
      rewrite (sort_of_newest_first _ (filter_newest_first _ _ Hsorted)).
      reflexivity.
Qed.

(** X7. From a world whose storage holds the text of the collection in
    memory, in order, or holds nothing under an empty collection, every
    sequence of loads, removes, saves of lists in order and appends under a
    clock that does not step back keeps it so: the storage holds what the
    screen shows. *)
Theorem storage_stays_in_step ops : forall w,
  in_step_with_storage w -> all_keep_order ops w ->
  in_step_with_storage (run ops w) /\
  persisted (run ops w) = memories (run ops w).
Proof.
  induction ops as [|o ops IH]; intros w Hw Hkeep; cbn [run].
  - split; [exact Hw|].
    destruct Hw as [_ [Hs|[Hs Hm]]]; unfold persisted; rewrite Hs; auto.
  - destruct Hkeep as [Ho Hops].
    apply IH; [now apply perform_in_step|exact Hops].
Qed.

Lemma storage_stays_in_step_from_install :
  persisted
    (run [append a_geocoding_device; load None;
          remove Delete None (str "1700000000000"); append a_full_device]
       (mkWorld [] true false (str "Tea") [] pin None None))
  = memories
      (run [append a_geocoding_device; load None;
            remove Delete None (str "1700000000000"); append a_full_device]
         (mkWorld [] true false (str "Tea") [] pin None None)).
Proof.
  refine (proj2 (storage_stays_in_step _ _ _ _)).
  - split; [constructor|right; now split].
  - cbn [all_keep_order keeps_order]. repeat split.
    + constructor.
    + unfold none_newer.
      match goal with
      | |- Forall _ ?l => replace l with (@nil LocationMemory.t) by reflexivity
      end.
      constructor.
Defined.

(** X8. With memory and storage in step, a screen that mounts anew over
    the stored text and loads it shows the collection that was in
    memory. *)
Theorem remount_recovers_collection w :
  in_step_with_storage w ->
  memories (after (loadMemories None) (initial (AsyncStorage w)))
  = memories w.
Proof.
  intros [Hsorted [Hs|[Hs Hm]]]; rewrite loadMemories_memories, Hs.
  - cbn. now apply sort_of_newest_first.
  - now rewrite Hm.
Qed.

Lemma remount_recovers_collection_in_step :
  memories (after (loadMemories None) (initial (AsyncStorage in_step)))
  = [newer; older].
Proof.
  refine (remount_recovers_collection in_step _).
  split; [repeat constructor; cbn; lia|now left].
Defined.

Lemma str_injective a b : str a = str b -> a = b.
Proof.
  unfold str. intros H.
  rewrite <- (string_of_list_ascii_of_string a),
          <- (string_of_list_ascii_of_string b).
  f_equal. revert H.
  generalize (list_ascii_of_string a) (list_ascii_of_string b).
  induction l as [|x l IH]; intros [|y l'] H; try discriminate H;
    [reflexivity|].
  cbn [map] in H. injection H as Hxy Hl. f_equal; [|now apply IH].
  rewrite <- (ascii_N_embedding x), <- (ascii_N_embedding y).
  now rewrite Hxy.
Qed.

(** Two integers are written differently. *)
Lemma toString_injective a b : toString a = toString b -> a = b.
Proof.
  unfold toString. intros H. apply str_injective in H.
  assert (Hrt : forall z,
            NilZero.int_of_string (NilZero.string_of_int (Z.to_int z))
            = Some (Z.to_int z)).
  { intros z. apply NilZero.isi; destruct z; cbn; try discriminate;
      intros [= Hp];
      pose proof (DecimalPos.Unsigned.to_uint_nonnil p); congruence. }
  apply (f_equal NilZero.int_of_string) in H. rewrite !Hrt in H.
  injection H as H. apply (f_equal Z.of_int) in H.
  now rewrite !DecimalZ.of_to in H.
Qed.

Lemma NoDup_map_filter {A B} (f : A -> B) (p : A -> bool) l :
  NoDup (map f l) -> NoDup (map f (filter p l)).
Proof.
  induction l as [|x l IH]; cbn [map filter]; intros Hnd; [constructor|].
  inversion Hnd as [|? ? Hx Hl]; subst.
  destruct (p x); [|auto].
  cbn [map]. constructor; [|auto].
  intros Hin. apply Hx. apply in_map_iff in Hin as [y [Hy Hin]].
  apply filter_In in Hin as [Hin _]. rewrite <- Hy. now apply in_map.
Qed.

(** X9. Over a collection of pairwise distinct identifiers, [createMemory]
    keeps the identifiers distinct when the one it writes for the clock is
    not in use, in particular when the identifiers in use are written from
    other readings; [deleteMemory] always keeps them distinct. *)
Theorem identifiers_stay_distinct w :
  NoDup (map LocationMemory.id (memories w)) ->
  (forall d,
     ~ In (toString (fst (Date_now d))) (map LocationMemory.id (memories w)) ->
     NoDup (map LocationMemory.id (memories (after (createMemory d) w)))) /\
  (forall d n,
     (forall m, In m (memories w) ->
        exists k, LocationMemory.id m = toString k /\ k <> n) ->
     fst (Date_now d) = n ->
     NoDup (map LocationMemory.id (memories (after (createMemory d) w)))) /\
  (forall b s i,
     NoDup (map LocationMemory.id (memories (after (deleteMemory b s i) w)))).
Proof.
  intros Hnd.
  assert (Hfresh : forall d,
    ~ In (toString (fst (Date_now d))) (map LocationMemory.id (memories w)) ->
    NoDup (map LocationMemory.id (memories (after (createMemory d) w)))).
  { intros d Hid.
    destruct (createMemory_appends d w) as [->|(lat & lon & _ & ->)];
      [exact Hnd|].
    eapply Permutation_NoDup.
    - symmetry. apply Permutation_map, sort_Permutation.
    - cbn [map LocationMemory.id]. now constructor. }
  split; [exact Hfresh|]. split.
  - intros d n Hids Hn. apply Hfresh. intros Hin.
    apply in_map_iff in Hin as [m [Hm Hin]].
    destruct (Hids m Hin) as [k [Hk Hne]].
    rewrite Hk, Hn in Hm. now apply toString_injective in Hm.
  - intros b s i. rewrite deleteMemory_memories.
    destruct b, s; try exact Hnd.
    eapply Permutation_NoDup.
    + symmetry. apply Permutation_map, sort_Permutation.
    + now apply NoDup_map_filter.
Qed.

Lemma identifiers_stay_distinct_for_tea :
  NoDup (map LocationMemory.id
           (memories (after (createMemory a_geocoding_device) tea_form))).
Proof.
  refine (proj1 (proj2 (identifiers_stay_distinct tea_form _))
            a_geocoding_device 1700000000000 _ eq_refl).
  - repeat constructor; cbn; intuition discriminate.
  - intros m [<-|[<-|[]]]; [exists 2|exists 1]; split;
      (reflexivity || discriminate).
Defined.



(** X11. A photo picked before a successful [createMemory] is the photo
    of the record created, in memory and in the storage, and the form holds
    no photo afterwards. *)
Theorem picked_photo_goes_into_record p d w a rest lat lon :
  requestPermissionsAsync p = Returned granted ->
  launchAsync p = Returned (mkPicked false (Some (a :: rest))) ->
  ImagePickerAsset.uri a <> [] ->
  trim (title w) <> [] ->
  requestForegroundPermissionsAsync d = Returned granted ->
  getCurrentPositionAsync d = Returned (lat, lon) ->
  setItem d = None ->
  (exists m,
     In m (memories (after (createMemory d) (after (pickImage p) w))) /\
     In m (persisted (after (createMemory d) (after (pickImage p) w))) /\
     LocationMemory.photoUri m = Some (ImagePickerAsset.uri a) /\
     LocationMemory.title m = trim (title w)) /\
  capturedPhoto (after (createMemory d) (after (pickImage p) w)) = None.
Proof.
  intros Hperm Hlaunch Huri Htitle Hloc Hpos Hset.
  assert (Hafter : after (pickImage p) w =
            mkWorld (memories w) (modalVisible w) (loading w) (title w)
              (description w) (selectedEmoji w)
              (Some (ImagePickerAsset.uri a)) (AsyncStorage w)).
  { destruct p as [perm launch], w as [ms mv ld ti de em ph st].
    cbn [requestPermissionsAsync launchAsync] in Hperm, Hlaunch.
    subst perm launch. reflexivity. }
  - rewrite Hafter.
    match goal with
    | |- context [after (createMemory d) ?w1] =>
        destruct (createMemory_saved d w1 lat lon Htitle Hloc Hpos Hset)
          as (_ & Hsaved & _); rewrite Hsaved
    end.
    cbn [memories capturedPhoto persisted AsyncStorage].
    split; [|reflexivity].
    eexists. split; [|split; [now left|]].
    + apply (Permutation_in _
               (Permutation_sym (sort_Permutation by_timestamp _))).
      now left.
    + cbn [newMemory LocationMemory.photoUri LocationMemory.title
           capturedPhoto title or_undefined].
      now rewrite (truthy_nonempty _ Huri).
Qed.

Lemma picked_photo_goes_into_record_for_coffee :
  capturedPhoto
    (after (createMemory a_geocoding_device)
       (after (pickImage a_picker) coffee_form)) = None.
Proof.
  refine (proj2
    (picked_photo_goes_into_record a_picker a_geocoding_device coffee_form
       (ImagePickerAsset.mk (str "file:///picked.jpg")) [] 40%Q (-73)%Q
       eq_refl eq_refl _ _ eq_refl eq_refl eq_refl)).
  - vm_compute. discriminate.
  - vm_compute. discriminate.
Defined.

Lemma filter_Boolean_nonempty parts :
  Forall (fun s => s <> []) (filter_Boolean parts).
Proof.
  induction parts as [|[s|] parts IH]; cbn [filter_Boolean];
    [constructor| |exact IH].
  destruct s as [|c s]; cbn [truthy]; [exact IH|].
  constructor; [discriminate|exact IH].
Qed.

(** Strings that are not empty join into a string that is not empty. *)
Lemma join_empty sep l :
  Forall (fun s => s <> []) l -> join sep l = [] -> l = [].
Proof.
  intros Hl. destruct Hl as [|s l Hs Hl]; [reflexivity|].
  cbn [join]. destruct l as [|s' l]; intros Hjoin; [contradiction|].
  destruct s; [contradiction|discriminate Hjoin].
Qed.

Lemma address_of_empty r : address_of r = [] <-> no_components r.
Proof.
  unfold address_of, no_components.
  destruct r as [[|addr rest]|e]; [tauto| |tauto].
  split.
  - apply join_empty, filter_Boolean_nonempty.
  - now intros ->.
Qed.

(** X12. The location of a record [createMemory] adds is the position the
    device fixed, with the address made of what the geocoder answered for
    that position; the address is empty exactly when the geocoder failed,
    found nothing, or found a place without street, city and region. *)
Theorem created_location_is_the_fix d w m :
  In m (memories (after (createMemory d) w)) ->
  ~ In m (memories w) ->
  exists lat lon,
    getCurrentPositionAsync d = Returned (lat, lon) /\
    LocationMemory.location m =
      Loc.mk lat lon (Some (address_of (reverseGeocodeAsync d lat lon))) /\
    (address_of (reverseGeocodeAsync d lat lon) = [] <->
     no_components (reverseGeocodeAsync d lat lon)).
Proof.
  intros Hin Hnew.
  destruct (created_record d w m Hin Hnew) as (_ & lat & lon & Hpos & ->).
  exists lat, lon. split; [exact Hpos|]. split; [reflexivity|].
  apply address_of_empty.
Qed.

Lemma created_location_is_the_fix_for_tea :
  exists lat lon,
    LocationMemory.location
      (newMemory a_geocoding_device tea_form
         (Loc.mk 40 (-73) (Some (str "Main St, Waltham"))))
    = Loc.mk lat lon
        (Some (address_of (reverseGeocodeAsync a_geocoding_device lat lon))).
Proof.
  destruct (created_location_is_the_fix a_geocoding_device tea_form
              (newMemory a_geocoding_device tea_form
                 (Loc.mk 40 (-73) (Some (str "Main St, Waltham"))))
              ltac:(vm_compute; left; reflexivity)
              ltac:(cbn; intros [H|[H|[]]]; discriminate H))
    as (lat & lon & _ & Hloc & _).
  now exists lat, lon.
Defined.

End StoreExtras.

(** ** More on the gallery screen *)

Module GalleryExtras.
Import JS Gallery Gallery.Sample SortFacts JSFacts GalleryFacts Observations.

Ltac run_step :=
  cbv beta iota zeta delta
    [after result trace fst snd bind try_catch try_finally emit gets modify
     await ret throw getPhotoInfo setPhotos setLoading setSelectedPhoto
     setModalVisible deletePhoto confirmDelete openPhotoModal loadPhotos
     perform is_granted app photos loading selectedPhoto modalVisible
     permission_granted requestPermission getAlbumAsync getAssetsAsync
     getAssetInfoAsync];
  cbn [negb].

Ltac run_all := run_step; repeat (progress run_step).

Lemma filter_drops_photo_id i (l : list Photo.t) :
  ~ In i (map Photo.id
            (filter (fun p => negb (jsstring_eqb (Photo.id p) i)) l)).
Proof.
  intros Hin. apply in_map_iff in Hin as [p [Hid Hp]].
  apply filter_In in Hp as [_ Hp].
  rewrite Hid, jsstring_eqb_refl in Hp. discriminate Hp.
Qed.

(** X13. [deletePhoto] returns normally. When the device deletes the asset
    the list loses the photos of that identifier and no other, in the order
    they were, and the viewer closes over the photo it showed; when the
    device refuses or the call is rejected the screen is as it was and one
    error alert is shown. *)
Theorem deleted_photo_leaves_list answer photoId w :
  result (deletePhoto answer photoId) w = Returned tt /\
  (answer = Returned true ->
     photos (after (deletePhoto answer photoId) w)
     = filter (fun p => negb (jsstring_eqb (Photo.id p) photoId)) (photos w) /\
     ~ In photoId
         (map Photo.id (photos (after (deletePhoto answer photoId) w))) /\
     (forall p, Photo.id p <> photoId -> In p (photos w) ->
                In p (photos (after (deletePhoto answer photoId) w))) /\
     modalVisible (after (deletePhoto answer photoId) w) = false /\
     selectedPhoto (after (deletePhoto answer photoId) w) = selectedPhoto w) /\
  (answer <> Returned true ->
     after (deletePhoto answer photoId) w = w /\
     alerts (trace (deletePhoto answer photoId) w)
     = [(str "Error", str "Failed to delete photo.")]).
Proof.
  destruct w as [ps ld sel mv].
  destruct answer as [[]|e]; run_all; (split; [reflexivity|]); split;
    try (intros H; discriminate H); try (intros H; now destruct H);
    try (intros _; now split).
  intros _. split; [reflexivity|]. split; [apply filter_drops_photo_id|].
  split; [|now split].
  intros p Hid Hin. apply filter_In. split; [exact Hin|].
  destruct (jsstring_eqb (Photo.id p) photoId) eqn:Heq; [|reflexivity].
  now apply jsstring_eqb_eq in Heq.
Qed.

Lemma deleted_photo_leaves_list_of_shown :
  map Photo.id
    (photos (after (deletePhoto (Returned true) (str "a"))
               (mkWorld shown false None true)))
  = [str "c"; str "b"].
Proof.
  rewrite (proj1 (proj1 (proj2
    (deleted_photo_leaves_list (Returned true) (str "a")
       (mkWorld shown false None true))) eq_refl)).
  reflexivity.
Defined.

(** What [loadPhotos] leaves in [photos]: what was there, or a merge. *)
Lemma loadPhotos_photos d w :
  photos (after (loadPhotos d) w) = photos w \/
  exists allPhotos recentPhotos,
    photos (after (loadPhotos d) w) = uniquePhotos allPhotos recentPhotos.
Proof.
  destruct (getPhotoInfos_returns d album_query
              match getAssetsAsync d album_query with
              | Returned albumAssets => albumAssets
              | Thrown _ => []
              end) as (albumPhotos & ta & Halbum & _).
  destruct (getPhotoInfos_returns d roll_query
              match getAssetsAsync d roll_query with
              | Returned assets => assets
              | Thrown _ => []
              end) as (recentPhotos & tr & Hrecent & _).
  destruct d as [pg rp ga gas gai], w as [ps ld sel mv].
  cbn [getAssetsAsync] in Halbum, Hrecent.
  unfold loadPhotos. run_all.
  destruct pg; run_all.
  2: destruct rp as [[]|e]; run_all; try now left.
  all: destruct ga as [[album|]|e]; run_all.
  all: try (destruct (gas album_query) as [albumAssets|e']; run_all;
            [rewrite Halbum|]).
  all: destruct (gas roll_query) as [assets|e'']; run_all;
         [rewrite Hrecent; right; now eexists _, _|now left].
Qed.

Lemma filter_NoDup_ids (f : Photo.t -> bool) l :
  NoDup (map Photo.id l) -> NoDup (map Photo.id (filter f l)).
Proof.
  induction l as [|x l IH]; cbn [map filter]; intros Hnd; [constructor|].
  inversion Hnd as [|? ? Hx Hl]; subst.
  destruct (f x); [|auto].
  cbn [map]. constructor; [|auto].
  intros Hin. apply Hx. apply in_map_iff in Hin as [y [Hy Hin]].
  apply filter_In in Hin as [Hin _]. rewrite <- Hy. now apply in_map.
Qed.

Lemma perform_tidy o w :
  NoDup (map Photo.id (photos w)) /\ newest_first (photos w) ->
  NoDup (map Photo.id (photos (after (perform o) w))) /\
  newest_first (photos (after (perform o) w)).
Proof.
  intros [Hnd Hsorted]. destruct o as [d|photo|b answer photo].
  - cbn [perform].
    destruct (loadPhotos_photos d w) as [->|(allPhotos & recentPhotos & ->)];
      [now split|].
    split; [apply uniquePhotos_NoDup|apply uniquePhotos_newest_first].
  - destruct w as [ps ld sel mv]. now split.
  - destruct w as [ps ld sel mv]. cbn [photos] in Hnd, Hsorted.
    destruct b; [now split|].
    destruct answer as [[]|e]; try now split.
    run_all. split; [now apply filter_NoDup_ids|].
    exact (filter_sorted Photo.creationTime _ _ Hsorted).
Qed.

(** X14. From the mounting screen, after every sequence of refreshes,
    openings and deletions the photos shown carry pairwise distinct
    identifiers and come newest first. *)
Theorem gallery_stays_distinct_and_ordered ops :
  NoDup (map Photo.id (photos (run ops initial))) /\
  newest_first (photos (run ops initial)).
Proof.
  assert (Hrun : forall w,
            NoDup (map Photo.id (photos w)) /\ newest_first (photos w) ->
            NoDup (map Photo.id (photos (run ops w))) /\
            newest_first (photos (run ops w))).
  { induction ops as [|o ops IH]; intros w Hw; cbn [run]; [exact Hw|].
    now apply IH, perform_tidy. }
  apply Hrun. split; constructor.
Qed.

(** X15. Without the permission, a prompt that is answered by a refusal
    ends [loadPhotos] with the screen as it was, one alert and no call to
    the photo library; a prompt that is rejected is not caught: the
    rejection reaches the caller of [loadPhotos]. *)
Theorem refused_permission_loads_nothing d w :
  permission_granted d = false ->
  (forall s, requestPermission d = Returned s -> s <> granted ->
     result (loadPhotos d) w = Returned tt /\
     after (loadPhotos d) w = w /\
     calls (trace (loadPhotos d) w) = [] /\
     alerts (trace (loadPhotos d) w)
     = [(str "Permission needed",
         str "We need access to your photo library to view photos.")]) /\
  (forall e, requestPermission d = Thrown e ->
     result (loadPhotos d) w = Thrown e /\
     after (loadPhotos d) w = w /\
     trace (loadPhotos d) w = []).
Proof.
  intros Hpg. destruct d as [pg rp ga gas gai], w as [ps ld sel mv].
  cbn [permission_granted] in Hpg. subst pg. split.
  - intros s Hrp Hs. cbn [requestPermission] in Hrp. subst rp.
    destruct s; [now destruct Hs| |]; now repeat split.
  - intros e Hrp. cbn [requestPermission] in Hrp. subst rp.
    now repeat split.
Qed.

Lemma refused_permission_loads_nothing_when_denied :
  after (loadPhotos a_refusing_device) (mkWorld shown false None false)
  = mkWorld shown false None false.
Proof.
  refine (proj1 (proj2 (proj1
    (refused_permission_loads_nothing a_refusing_device
       (mkWorld shown false None false) eq_refl) denied eq_refl _))).
  discriminate.
Defined.

Lemma alerts_app t1 t2 : alerts (t1 ++ t2) = (alerts t1 ++ alerts t2)%list.
Proof.
  induction t1 as [|[] t1 IH]; cbn [alerts app]; auto. now rewrite IH.
Qed.

(** Resolving a batch shows no alert. *)
Lemma Promise_all_getPhotoInfo_quiet
    (f : nat -> Asset.t -> outcome AssetInfo.t) assets : forall k w,
  alerts (trace (Promise_all_map
                   (fun ia => getPhotoInfo (f (fst ia)) (snd ia))
                   (combine (seq k (List.length assets)) assets)) w) = [].
Proof.
  induction assets as [|asset assets IH]; intros k w; [reflexivity|].
  cbn [List.length seq combine Promise_all_map].
  specialize (IH (S k) w).
  destruct (Promise_all_getPhotoInfo f assets (S k))
    as (ps & ts & Hruns & _).
  unfold trace in *. rewrite Hruns in IH. cbn [snd] in IH.
  unfold bind at 1. cbn [fst snd].
  destruct (getPhotoInfo_returns (f k) asset) as (p & t & Hrun & _).
  rewrite Hrun. unfold bind at 1. rewrite Hruns. cbn [snd].
  unfold ret. cbn [snd].
  rewrite !alerts_app, IH.
  specialize (Hrun w). revert Hrun. run_all.
  destruct (f k asset); intros [= _ <-]; reflexivity.
Qed.

Lemma getPhotoInfos_quiet d q assets w :
  alerts (trace (getPhotoInfos d q assets) w) = [].
Proof. apply Promise_all_getPhotoInfo_quiet. Qed.

(** X16. With the permission granted and the roll read, a missing album, a
    rejected album lookup or a rejected album query is no error:
    [loadPhotos] returns, publishes the merge of the photos of the roll
    alone, lowers the loading flag and shows no alert. *)
Theorem album_trouble_still_shows_roll d w assets :
  permission_granted d = true ->
  getAssetsAsync d roll_query = Returned assets ->
  (getAlbumAsync d = Returned None \/
   (exists e, getAlbumAsync d = Thrown e) \/
   (exists e, getAssetsAsync d album_query = Thrown e)) ->
  exists recentPhotos,
    result (getPhotoInfos d roll_query assets) w = Returned recentPhotos /\
    result (loadPhotos d) w = Returned tt /\
    photos (after (loadPhotos d) w) = uniquePhotos [] recentPhotos /\
    loading (after (loadPhotos d) w) = false /\
    alerts (trace (loadPhotos d) w) = [].
Proof.
  intros Hpg Hroll Halbum.
  destruct (getPhotoInfos_returns d roll_query assets)
    as (recentPhotos & tr & Hrecent & _).
  pose proof (getPhotoInfos_quiet d roll_query assets w) as Hquiet.
  unfold trace in Hquiet. rewrite Hrecent in Hquiet. cbn [snd] in Hquiet.
  exists recentPhotos. split; [unfold result; now rewrite Hrecent|].
  destruct d as [pg rp ga gas gai], w as [ps ld sel mv].
  cbn [permission_granted getAssetsAsync getAlbumAsync] in Hpg, Hroll, Halbum.
  subst pg. unfold loadPhotos. run_all.
  destruct Halbum as [->|[[e ->]|[e Hgas]]]; run_all.
  - rewrite Hroll, Hrecent. cbn [alerts]. fold (@app event).
    rewrite ?app_nil_r, ?alerts_app, Hquiet. now repeat split.
  - rewrite Hroll, Hrecent. cbn [alerts]. fold (@app event).
    rewrite ?app_nil_r, ?alerts_app, Hquiet. now repeat split.
  - destruct ga as [[album|]|e']; run_all; try rewrite Hgas;
      rewrite Hroll, Hrecent; cbn [alerts]; fold (@app event);
      rewrite ?app_nil_r, ?alerts_app, Hquiet; now repeat split.
Qed.

Lemma album_trouble_still_shows_roll_without_album :
  exists recentPhotos,
    photos (after (loadPhotos (a_device_without_album (Returned None)))
              initial)
    = uniquePhotos [] recentPhotos.
Proof.
  destruct (album_trouble_still_shows_roll
              (a_device_without_album (Returned None)) initial
              [first_asset; second_asset; third_asset] eq_refl eq_refl
              (or_introl eq_refl))
    as (recentPhotos & _ & _ & Hphotos & _).
  now exists recentPhotos.
Defined.

(** X17. With the permission granted, when the query of the roll is
    rejected [loadPhotos] returns with the photos shown before, whatever
    the album gave, lowers the loading flag and shows one error alert. *)
Theorem roll_failure_keeps_photos d w e :
  permission_granted d = true ->
  getAssetsAsync d roll_query = Thrown e ->
  result (loadPhotos d) w = Returned tt /\
  photos (after (loadPhotos d) w) = photos w /\
  loading (after (loadPhotos d) w) = false /\
  alerts (trace (loadPhotos d) w)
  = [(str "Error", str "Failed to load photos. Please try again.")].
Proof.
  intros Hpg Hroll.
  destruct (getPhotoInfos_returns d album_query
              match getAssetsAsync d album_query with
              | Returned albumAssets => albumAssets
              | Thrown _ => []
              end) as (albumPhotos & ta & Halbum & _).
  pose proof (fun w' => getPhotoInfos_quiet d album_query
              match getAssetsAsync d album_query with
              | Returned albumAssets => albumAssets
              | Thrown _ => []
              end w') as Hquiet.
  unfold trace in Hquiet.
  destruct d as [pg rp ga gas gai], w as [ps ld sel mv].
  cbn [permission_granted getAssetsAsync] in Hpg, Hroll, Halbum, Hquiet.
  subst pg. unfold loadPhotos. run_all.
  destruct ga as [[album|]|e']; run_all.
  - destruct (gas album_query) as [albumAssets|e'']; run_all.
    + specialize (Hquiet (mkWorld ps true sel mv)).
      rewrite Halbum in Hquiet |- *. cbn [snd] in Hquiet.
      rewrite Hroll. run_all. cbn [alerts]. fold (@app event).
      rewrite ?app_nil_r, ?alerts_app, Hquiet. now repeat split.
    + rewrite Hroll. now repeat split.
  - rewrite Hroll. now repeat split.
  - rewrite Hroll. now repeat split.
Qed.

Lemma roll_failure_keeps_photos_of_shown :
  photos
    (after (loadPhotos
              (mkDevice true (Returned granted) (Returned None)
                 (fun _ => Thrown no_info) second_fails))
       (mkWorld shown false None false))
  = shown.
Proof.
  exact (proj1 (proj2
    (roll_failure_keeps_photos
       (mkDevice true (Returned granted) (Returned None)
          (fun _ => Thrown no_info) second_fails)
       (mkWorld shown false None false) no_info eq_refl eq_refl))).
Defined.

(** Setting a key the map does not hold appends the entry. *)
Lemma Map_set_fresh {V} k (v : V) (m : Map V) :
  ~ In k (map fst m) -> Map_set k v m = (m ++ [(k, v)])%list.
Proof.
  induction m as [|[k' v'] m IH]; cbn [Map_set map fst In app]; intros Hno;
    [reflexivity|].
  destruct (jsstring_eqb k' k) eqn:Hk.
  - apply jsstring_eqb_eq in Hk. destruct Hno. now left.
  - rewrite IH; [reflexivity|]. intros Hin. apply Hno. now right.
Qed.

(** Photos of pairwise distinct identifiers fill the map in their order. *)
Lemma fold_Map_set_distinct l : forall m : Map Photo.t,
  NoDup (map fst m ++ map Photo.id l) ->
  fold_left (fun m photo => Map_set (Photo.id photo) photo m) l m
  = (m ++ map (fun p => (Photo.id p, p)) l)%list.
Proof.
  induction l as [|p l IH]; intros m Hnd; cbn [fold_left map].
  - now rewrite app_nil_r.
  - cbn [map] in Hnd.
    rewrite Map_set_fresh.
    + rewrite IH.
      * now rewrite <- app_assoc.
      * rewrite map_app. cbn [map fst]. rewrite <- app_assoc. exact Hnd.
    + apply NoDup_remove_2 in Hnd. intros Hin. apply Hnd.
      apply in_or_app. now left.
Qed.

Lemma uniquePhotos_of_tidy l :
  NoDup (map Photo.id l) -> newest_first l ->
  uniquePhotos [] l = l /\ uniquePhotos l [] = l.
Proof.
  intros Hnd Hsorted.
  assert (Hvalues : Map_values (photoMap [] l) = l).
  { unfold photoMap. cbn [app]. rewrite fold_Map_set_distinct by exact Hnd.
    cbn [app]. unfold Map_values. rewrite map_map. cbn [snd]. apply map_id. }
  split; unfold uniquePhotos.
  - rewrite Hvalues.
    exact (sort_of_sorted _ _ by_creationTime_key l Hsorted).
  - unfold photoMap in *. rewrite app_nil_r. cbn [app] in Hvalues.
    rewrite Hvalues.
    exact (sort_of_sorted _ _ by_creationTime_key l Hsorted).
Qed.

(** X18. Merging is idempotent: photos of pairwise distinct identifiers
    that come newest first are merged to themselves, as album or as roll;
    so the merge of a merge is that merge. *)
Theorem merge_of_merged :
  (forall l, NoDup (map Photo.id l) -> newest_first l ->
     uniquePhotos [] l = l /\ uniquePhotos l [] = l) /\
  (forall album roll,
     uniquePhotos [] (uniquePhotos album roll) = uniquePhotos album roll /\
     uniquePhotos (uniquePhotos album roll) [] = uniquePhotos album roll).
Proof.
  split; [exact uniquePhotos_of_tidy|].
  intros album roll. apply uniquePhotos_of_tidy.
  - apply uniquePhotos_NoDup.
  - apply uniquePhotos_newest_first.
Qed.

Lemma merge_of_merged_of_shown : uniquePhotos [] shown = shown.
Proof.
  refine (proj1 (proj1 merge_of_merged shown _ _)).
  - repeat constructor; cbn; intuition discriminate.
  - repeat constructor; cbn; lia.
Defined.

End GalleryExtras.

(** ** The camera screen *)

Module CameraExtras.
Import JS Camera Camera.Sample Observations.

Ltac run_step :=
  cbv beta iota zeta delta
    [after result trace fst snd bind try_catch try_finally emit gets modify
     await ret throw takePicture toggleCameraFacing setFacing setIsCapturing
     facing isCapturing camera_mounted mediaPermission_granted
     requestMediaPermission takePictureAsync createAssetAsync getAlbumAsync
     createAlbumAsync addAssetsToAlbumAsync Gallery.is_granted orb];
  cbn [negb].

Ltac run_all := run_step; repeat (progress run_step).

(** X19. [takePicture] returns normally and leaves the facing alone. With
    no camera mounted or a capture under way it does nothing at all;
    otherwise the capture flag is down when it returns, whatever the device
    answered. *)
Theorem capture_flag_is_released d w :
  result (takePicture d) w = Returned tt /\
  facing (after (takePicture d) w) = facing w /\
  (camera_mounted d = false \/ isCapturing w = true ->
     takePicture d w = (Returned tt, w, [])) /\
  (camera_mounted d = true -> isCapturing w = false ->
     isCapturing (after (takePicture d) w) = false).
Proof.
  destruct d as [cm mp rmp tp ca ga cra aa], w as [fc cap].
  assert (Hrun : result (takePicture (mkDevice cm mp rmp tp ca ga cra aa))
                   (mkWorld fc cap) = Returned tt /\
                 facing
                   (after (takePicture (mkDevice cm mp rmp tp ca ga cra aa))
                      (mkWorld fc cap)) = fc /\
                 (cm = true -> cap = false ->
                  isCapturing
                    (after (takePicture (mkDevice cm mp rmp tp ca ga cra aa))
                       (mkWorld fc cap)) = false)).
  { run_all. destruct cm, cap; run_all; try (repeat split; congruence).
    destruct mp; run_all.
    2: destruct rmp as [[]|e]; run_all; try (repeat split; congruence).
    all: destruct tp as [[uri|]|e]; run_all; try (repeat split; congruence).
    all: destruct (ca uri) as [asset|e]; run_all;
           try (repeat split; congruence).
    all: destruct ga as [[album|]|e]; run_all;
           try (repeat split; congruence).
    all: try (destruct aa as [[]|e]; run_all; repeat split; congruence).
    all: destruct cra as [[]|e]; run_all; repeat split; congruence. }
  destruct Hrun as (Hres & Hfacing & Hcap).
  split; [exact Hres|]. split; [exact Hfacing|]. split; [|exact Hcap].
  cbn [camera_mounted isCapturing].
  intros [->| ->]; [reflexivity|]. now destruct cm.
Qed.

Lemma capture_flag_is_released_while_capturing :
  takePicture a_camera_without_album (mkWorld back true)
  = (Returned tt, mkWorld back true, []).
Proof.
  exact (proj1 (proj2 (proj2
           (capture_flag_is_released a_camera_without_album
              (mkWorld back true))))
           (or_intror eq_refl)).
Defined.

(** X20. Once the picture is taken and saved as an asset, [takePicture]
    shows the success alert and no other, whatever becomes of the album:
    the album is created exactly when the lookup finds none, and the asset
    is added to it exactly when the lookup finds one. *)
Theorem saved_photo_is_reported d w uri asset :
  camera_mounted d = true ->
  isCapturing w = false ->
  (mediaPermission_granted d = true \/
   requestMediaPermission d = Returned Gallery.granted) ->
  takePictureAsync d = Returned (Some uri) ->
  createAssetAsync d uri = Returned asset ->
  result (takePicture d) w = Returned tt /\
  alerts (trace (takePicture d) w)
  = [(str "Success!", str "Photo saved to gallery successfully!")] /\
  (In (str "MediaLibrary.createAlbumAsync") (calls (trace (takePicture d) w))
   <-> getAlbumAsync d = Returned None) /\
  (In (str "MediaLibrary.addAssetsToAlbumAsync")
      (calls (trace (takePicture d) w))
   <-> exists album, getAlbumAsync d = Returned (Some album)).
Proof.
  intros Hcm Hcap Hperm Htp Hca.
  destruct d as [cm mp rmp tp ca ga cra aa], w as [fc cap].
  cbn [camera_mounted isCapturing mediaPermission_granted
       requestMediaPermission takePictureAsync createAssetAsync
       getAlbumAsync] in *.
  subst cm cap tp. run_all.
  assert (Hgo :
    (mp = true \/ rmp = Returned Gallery.granted) ->
    mp = true \/ (mp = false /\ rmp = Returned Gallery.granted))
    by (destruct mp; intuition).
  destruct (Hgo Hperm) as [->|[-> ->]]; run_all; rewrite Hca; run_all;
    destruct ga as [[album|]|e]; run_all;
    destruct aa as [[]|ea]; destruct cra as [[]|ec]; run_all;
    (split; [reflexivity|]); (split; [reflexivity|]);
    cbv; intuition (try discriminate; eauto);
    repeat match goal with
           | H : exists _, _ |- _ => destruct H
           end; try discriminate.
Qed.

Lemma saved_photo_is_reported_without_album :
  alerts (trace (takePicture a_camera_without_album) initial)
  = [(str "Success!", str "Photo saved to gallery successfully!")].
Proof.
  exact (proj1 (proj2
    (saved_photo_is_reported a_camera_without_album initial
       (str "file:///shot.jpg") a_photo eq_refl eq_refl (or_introl eq_refl)
       eq_refl eq_refl))).
Defined.

(** X21. When the photo library is not granted and the prompt is answered
    by a refusal, [takePicture] asks, shows one alert and stops: no picture
    is taken, nothing is saved, and the screen is as it was. *)
Theorem refused_library_takes_no_picture d w s :
  camera_mounted d = true ->
  isCapturing w = false ->
  mediaPermission_granted d = false ->
  requestMediaPermission d = Returned s ->
  s <> Gallery.granted ->
  takePicture d w =
    (Returned tt, w,
     [Call (str "requestMediaPermission");
      Alert_alert (str "Permission needed")
        (str ("We need access to your photo library " ++
              "to save pictures."))]).
Proof.
  intros Hcm Hcap Hmp Hrmp Hs.
  destruct d as [cm mp rmp tp ca ga cra aa], w as [fc cap].
  cbn [camera_mounted isCapturing mediaPermission_granted
       requestMediaPermission] in *.
  subst cm cap mp rmp. run_all.
  destruct s; [now destruct Hs| |]; reflexivity.
Qed.

Lemma refused_library_takes_no_picture_when_denied :
  calls (trace (takePicture a_refused_camera) initial)
  = [str "requestMediaPermission"].
Proof.
  unfold trace.
  rewrite (refused_library_takes_no_picture a_refused_camera initial
             Gallery.denied eq_refl eq_refl eq_refl eq_refl
             ltac:(discriminate)).
  reflexivity.
Defined.

End CameraExtras.

(** ** The map screen *)

Module MapExtras.
Import JS MapScreen MapScreen.Sample SortFacts JSFacts Observations.

Ltac run_step :=
  cbv beta iota zeta delta
    [after result trace fst snd bind try_catch try_finally emit gets modify
     await ret throw loadMemories getCurrentLocation openMemoryDetails
     onMessage AsyncStorage_getItem JSON_parse parsed_sort
     Memories.blob_truthy Memories.is_granted setLocation setMemories
     setLoading setAddress setLastUpdated setSelectedMemory setModalVisible
     location memories loading address lastUpdated selectedMemory
     modalVisible showMap AsyncStorage requestForegroundPermissionsAsync
     getCurrentPositionAsync reverseGeocodeAsync Date_now];
  cbn [negb].

Ltac run_all := run_step; repeat (progress run_step).

(** X22. [getCurrentLocation] of the map returns normally with the loading
    flag down and leaves the memories, the selection, the detail view and
    the map toggle alone. It leaves position, time and address as they were
    or, with the permission granted and a position fixed, shows that
    position and the reading of the clock. *)
Theorem fix_releases_loading d w :
  result (getCurrentLocation d) w = Returned tt /\
  loading (after (getCurrentLocation d) w) = false /\
  memories (after (getCurrentLocation d) w) = memories w /\
  selectedMemory (after (getCurrentLocation d) w) = selectedMemory w /\
  modalVisible (after (getCurrentLocation d) w) = modalVisible w /\
  showMap (after (getCurrentLocation d) w) = showMap w /\
  (location (after (getCurrentLocation d) w) = location w /\
   lastUpdated (after (getCurrentLocation d) w) = lastUpdated w /\
   address (after (getCurrentLocation d) w) = address w \/
   exists coords,
     requestForegroundPermissionsAsync d = Returned Memories.granted /\
     getCurrentPositionAsync d = Returned coords /\
     location (after (getCurrentLocation d) w) = Some coords /\
     lastUpdated (after (getCurrentLocation d) w) = Some (Date_now d)).
Proof.
  destruct d as [perm pos rg now],
    w as [loc ms ld ad lu sel mv sm st].
  run_all.
  destruct perm as [[]|e]; run_all; try (repeat split; now left).
  destruct pos as [[lat lon alt acc spd hd]|e]; run_all;
    try (repeat split; now left).
  cbn [LocationData.latitude LocationData.longitude LocationData.altitude
       LocationData.accuracy LocationData.speed LocationData.heading].
  destruct (rg lat lon) as [[|addr rest]|e]; run_all;
    (repeat split; right; eexists; now repeat split).
Qed.

(** X23. With the permission granted and a position fixed, the map shows
    the new position. The address is replaced, by the components of the
    first place joined with commas, only when the geocoder finds a place;
    when it fails or finds nothing the address shown before stays next to
    the new position and no alert is shown. *)
Theorem fix_without_place_keeps_address d w coords :
  requestForegroundPermissionsAsync d = Returned Memories.granted ->
  getCurrentPositionAsync d = Returned coords ->
  location (after (getCurrentLocation d) w) = Some coords /\
  (forall addr rest,
     reverseGeocodeAsync d (LocationData.latitude coords)
       (LocationData.longitude coords) = Returned (addr :: rest) ->
     address (after (getCurrentLocation d) w)
     = join (str ", ")
         (Memories.filter_Boolean
            [streetNumber addr; street addr; city addr; region addr;
             country addr])) /\
  (reverseGeocodeAsync d (LocationData.latitude coords)
     (LocationData.longitude coords) = Returned [] \/
   (exists e,
      reverseGeocodeAsync d (LocationData.latitude coords)
        (LocationData.longitude coords) = Thrown e) ->
   address (after (getCurrentLocation d) w) = address w /\
   alerts (trace (getCurrentLocation d) w) = []).
Proof.
  intros Hperm Hpos.
  destruct d as [perm pos rg now],
    w as [loc ms ld ad lu sel mv sm st].
  cbn [requestForegroundPermissionsAsync getCurrentPositionAsync
       reverseGeocodeAsync] in *.
  subst perm pos. destruct coords as [lat lon alt acc spd hd].
  cbn [LocationData.latitude LocationData.longitude].
  run_all.
  cbn [LocationData.latitude LocationData.longitude LocationData.altitude
       LocationData.accuracy LocationData.speed LocationData.heading].
  destruct (rg lat lon) as [[|addr rest]|e]; run_all;
    (split; [reflexivity|]); split;
    try (intros ? ? [= <- <-]; reflexivity);
    try (intros ? ? H; discriminate H);
    try (intros _; now split).
  intros [H|[e H]]; discriminate H.
Qed.

Lemma fix_without_place_keeps_address_of_earlier_view :
  location (after (getCurrentLocation a_device) an_earlier_view)
  = Some a_fix /\
  address (after (getCurrentLocation a_device) an_earlier_view)
  = str "Main St".
Proof.
  destruct (fix_without_place_keeps_address a_device an_earlier_view a_fix
              eq_refl eq_refl) as (Hloc & _ & Hkeep).
  split; [exact Hloc|].
  exact (proj1 (Hkeep (or_intror (ex_intro _ _ eq_refl)))).
Defined.

Lemma find_has_id i l m :
  find (has_id (Some i)) l = Some m ->
  In m l /\ Memories.LocationMemory.id m = i.
Proof.
  intros Hfind. apply find_some in Hfind as [Hin Hid].
  split; [exact Hin|]. now apply jsstring_eqb_eq.
Qed.

Lemma find_listed_id i l :
  In i (map Memories.LocationMemory.id l) ->
  exists m, find (has_id (Some i)) l = Some m.
Proof.
  intros Hin. apply in_map_iff in Hin as [m0 [Hid Hin]].
  destruct (find (has_id (Some i)) l) as [m|] eqn:Hfind; [now exists m|].
  apply (find_none _ _ Hfind) in Hin. cbn [has_id] in Hin.
  rewrite Hid, jsstring_eqb_refl in Hin. discriminate Hin.
Qed.

(** X24. The message handler of the web view returns normally. For an
    [openMemory] message that names an identifier some memory of the list
    carries, it selects the first such memory and opens the detail view,
    changing nothing else and logging nothing; it does so for no other
    message. A message naming an identifier that no memory carries changes
    nothing and logs nothing; a text that is not JSON, or is [null], changes
    nothing and is logged. *)
Theorem message_opens_listed_memory data w :
  result (onMessage data) w = Returned tt /\
  (after (onMessage data) w = w \/
   exists i m,
     data = JsonValue (Some (str "openMemory")) (Some i) /\
     In m (memories w) /\
     Memories.LocationMemory.id m = i /\
     find (has_id (Some i)) (memories w) = Some m /\
     after (onMessage data) w =
       mkWorld (location w) (memories w) (loading w) (address w)
         (lastUpdated w) (Some m) true (showMap w) (AsyncStorage w)) /\
  (forall type i,
     ~ In i (map Memories.LocationMemory.id (memories w)) ->
     onMessage (JsonValue type (Some i)) w = (Returned tt, w, [])) /\
  (forall i m,
     find (has_id (Some i)) (memories w) = Some m ->
     onMessage (JsonValue (Some (str "openMemory")) (Some i)) w =
       (Returned tt,
        mkWorld (location w) (memories w) (loading w) (address w)
          (lastUpdated w) (Some m) true (showMap w) (AsyncStorage w),
        [])) /\
  (forall i,
     In i (map Memories.LocationMemory.id (memories w)) ->
     exists m,
       In m (memories w) /\
       Memories.LocationMemory.id m = i /\
       selectedMemory
         (after (onMessage (JsonValue (Some (str "openMemory")) (Some i))) w)
       = Some m /\
       modalVisible
         (after (onMessage (JsonValue (Some (str "openMemory")) (Some i))) w)
       = true) /\
  onMessage NotJsonText w =
    (Returned tt, w,
     [console_log [str "Error parsing WebView message:"] SyntaxError]) /\
  onMessage JsonNull w =
    (Returned tt, w,
     [console_log [str "Error parsing WebView message:"] TypeError]).
Proof.
  destruct w as [loc ms ld ad lu sel mv sm st].
  assert (Hopen : forall i m,
    find (has_id (Some i)) ms = Some m ->
    onMessage (JsonValue (Some (str "openMemory")) (Some i))
      (mkWorld loc ms ld ad lu sel mv sm st) =
      (Returned tt, mkWorld loc ms ld ad lu (Some m) true sm st, [])).
  { intros i m Hfind. run_all. cbn [is_openMemory].
    rewrite jsstring_eqb_refl, Hfind. reflexivity. }
  split; [|split; [|split; [|split; [|split; [|split]]]]].
  - destruct data as [| |type memoryId]; try reflexivity.
    run_all. destruct (is_openMemory type); [|reflexivity].
    destruct (find (has_id memoryId) ms); reflexivity.
  - destruct data as [| |type memoryId]; try now left.
    run_all. destruct (is_openMemory type) eqn:Htype; [|now left].
    destruct (find (has_id memoryId) ms) as [m|] eqn:Hfind; [|now left].
    right. destruct memoryId as [i|]; [|now apply find_some in Hfind].
    destruct (find_has_id i ms m Hfind) as [Hin Hid].
    exists i, m. repeat split; auto.
    destruct type as [s|]; [|discriminate Htype].
    cbn [is_openMemory] in Htype. apply jsstring_eqb_eq in Htype.
    now subst s.
  - intros type i Habsent. run_all.
    destruct (is_openMemory type); [|reflexivity].
    destruct (find (has_id (Some i)) ms) as [m|] eqn:Hfind; [|reflexivity].
    destruct (find_has_id i ms m Hfind) as [Hin Hid].
    destruct Habsent. cbn [memories]. rewrite <- Hid. now apply in_map.
  - exact Hopen.
  - intros i Hin. cbn [memories] in Hin.
    destruct (find_listed_id i ms Hin) as [m Hfind].
    destruct (find_has_id i ms m Hfind) as [Hm Hid].
    exists m. unfold after. rewrite (Hopen i m Hfind). now repeat split.
  - reflexivity.
  - reflexivity.
Qed.

(** On a screen that lists two memories, the message naming the older one
    opens it; the message naming no memory changes nothing. *)
Lemma message_opens_listed_memory_on_earlier_view :
  after
    (onMessage (JsonValue (Some (str "openMemory")) (Some (str "1"))))
    an_earlier_view
  = mkWorld (Some (LocationData.mk 42 (-71) None None None None))
      [Memories.Sample.newer; Memories.Sample.older] false (str "Main St")
      (Some 1600000000000) (Some Memories.Sample.older) true true None /\
  onMessage (JsonValue (Some (str "openMemory")) (Some (str "9")))
    an_earlier_view
  = (Returned tt, an_earlier_view, []).
Proof.
  split.
  - unfold after.
    rewrite (proj1 (proj2 (proj2 (proj2
               (message_opens_listed_memory JsonNull an_earlier_view))))
               (str "1") Memories.Sample.older eq_refl).
    reflexivity.
  - refine (proj1 (proj2 (proj2
              (message_opens_listed_memory JsonNull an_earlier_view)))
              _ (str "9") _).
    cbn. intros [H|[H|[]]]; discriminate H.
Defined.

(** X25. The map lists what the memories screen lists: over the same
    stored text both screens publish the same sequence on load, and after a
    successful save on the memories screen a map that mounts and loads
    shows the sequence that save published. The load of the map returns
    normally and leaves the storage alone. *)
Theorem map_lists_what_was_saved :
  (forall g stored,
     memories (after (loadMemories g) (initial stored))
     = Memories.memories
         (after (Memories.loadMemories g) (Memories.initial stored))) /\
  (forall l w,
     memories
       (after (loadMemories None)
          (initial
             (Memories.AsyncStorage
                (after (Memories.saveMemories None l) w))))
     = Memories.memories (after (Memories.saveMemories None l) w)) /\
  (forall g w,
     result (loadMemories g) w = Returned tt /\
     AsyncStorage (after (loadMemories g) w) = AsyncStorage w).
Proof.
  split; [|split].
  - intros g [[]|]; destruct g; reflexivity.
  - intros l w. reflexivity.
  - intros g w. destruct g, w as [loc ms ld ad lu sel mv sm [[]|]];
      now split.
Qed.

End MapExtras.
